(** * secret-server-task: the secret entity and its two storage backends

    A shallow embedding of the package [secret_server_task]: the [Secret]
    entity with [IsAvailable] and [NewSecret], the in-memory storage
    ([memStorage], a map from hash to record) and the PostgreSQL storage
    ([pgStorage], one transaction per [Get]); then [GenHashKey], the
    interface [Storage] with the HTTP handlers of the server that call it,
    and the tests of the package.

    Conventions of the embedding.
    - Go's [int] and [time.Duration] are 64-bit two's complement integers:
      they are values of [Z] and every arithmetic operation of the source is
      followed by [wrap64].
    - A [time.Time] is the number of nanoseconds since the zero time
      (January 1, year 1, 00:00:00 UTC), so that [IsZero] is a comparison
      with [0], [After] is [<] and [Add] adds the duration.
    - [time.Now()] and [uuid.New()] are the environment's: each call of the
      source that reads one of them receives the value as an argument.
    - A call of a storage method is one atomic step on the store: the mutex
      of a [memSecret] is taken and released inside [Get] and is free between
      two calls.
    - The database is a finite map from the primary key to the row; what the
      driver may report (a connection failure at any statement) is a fault
      argument of the call.
    - A handler returns the calls it makes on its [http.ResponseWriter], in
      order; the order in which a [range] visits a map is an argument of
      the call. *)

From Stdlib Require Import ZArith Lia.
From Stdlib.Strings Require Import Byte.
From stdpp Require Import gmap strings.

Local Open Scope Z_scope.

(** ** Machine integers *)

Module Int64.

Definition modulus : Z := 2 ^ 64.
Definition min_signed : Z := - 2 ^ 63.
Definition max_signed : Z := 2 ^ 63 - 1.

(** The value of a 64-bit two's complement word holding [z]. *)
Definition wrap64 (z : Z) : Z := (z + 2 ^ 63) mod 2 ^ 64 - 2 ^ 63.

Definition in_range (z : Z) : Prop := min_signed <= z <= max_signed.

Definition add (a b : Z) : Z := wrap64 (a + b).
Definition sub (a b : Z) : Z := wrap64 (a - b).
Definition mul (a b : Z) : Z := wrap64 (a * b).

End Int64.

(** ** Time *)

(** Nanoseconds since the zero time. *)
Definition Time : Type := Z.
(** A [time.Duration]: a 64-bit count of nanoseconds. *)
Definition Duration : Type := Z.

Definition zeroTime : Time := 0.
Definition Minute : Duration := 60 * 1000000000.

Definition IsZero (t : Time) : bool := bool_decide (t = zeroTime).
(** [t.After(u)] *)
Definition After (t u : Time) : bool := bool_decide (u < t).
(** [t.Add(d)] *)
Definition Add (t : Time) (d : Duration) : Time := t + d.

(** ** Errors *)

(** The four error values of the package, and the errors of the database
    driver, which the package passes around without looking inside. *)
Inductive error : Type :=
  | ErrInvalidExpireAfter
  | ErrInvalidExpireAfterViews
  | ErrEmptySecret
  | ErrSecretNotAvailable
  | ErrDriver (msg : string).

#[global] Instance error_eq_dec : EqDecision error.
Proof. solve_decision. Defined.

(** [sql.ErrNoRows], what [tx.Get] returns when the query selects no row. *)
Definition ErrNoRows : error := ErrDriver "sql: no rows in result set".

(** ** The secret entity *)

Record Secret : Type := mkSecret {
  Hash : string;
  SecretText : string;
  CreatedAt : Time;
  ExpiresAt : Time;
  RemainingViews : Z
}.

#[global] Instance Secret_eq_dec : EqDecision Secret.
Proof. solve_decision. Defined.

(** [Secret{}] *)
Definition zeroSecret : Secret := mkSecret "" "" zeroTime zeroTime 0.

Definition set_SecretText (v : string) (s : Secret) : Secret :=
  mkSecret (Hash s) v (CreatedAt s) (ExpiresAt s) (RemainingViews s).
Definition set_ExpiresAt (v : Time) (s : Secret) : Secret :=
  mkSecret (Hash s) (SecretText s) (CreatedAt s) v (RemainingViews s).
Definition set_RemainingViews (v : Z) (s : Secret) : Secret :=
  mkSecret (Hash s) (SecretText s) (CreatedAt s) (ExpiresAt s) v.

(** [s.IsAvailable()], with the reading [now] of [time.Now()]. *)
Definition IsAvailable (now : Time) (s : Secret) : bool :=
  (IsZero (ExpiresAt s) || After (ExpiresAt s) now) && bool_decide (0 < RemainingViews s).

(** A call returns a [Secret] and an [error]; [None] is Go's [nil]. *)
Definition result : Type := Secret * option error.

(** [NewSecret(secret, expireAfterViews, expireAfter)]; [hash] is what
    [GenHashKey()] returned and [now] what [time.Now()] returned. *)
Definition NewSecret (hash : string) (now : Time)
    (secret : string) (expireAfterViews expireAfter : Z) : result :=
  let result := mkSecret hash "" now zeroTime 0 in
  if bool_decide (secret = "") then (zeroSecret, Some ErrEmptySecret) else
  let result := set_SecretText secret result in
  if bool_decide (expireAfterViews < 1) then (zeroSecret, Some ErrInvalidExpireAfterViews) else
  let result := set_RemainingViews expireAfterViews result in
  if bool_decide (expireAfter < 0) then (zeroSecret, Some ErrInvalidExpireAfter) else
  let result :=
    if bool_decide (0 < expireAfter)
    then set_ExpiresAt (Add (CreatedAt result) (Int64.mul expireAfter Minute)) result
    else result in
  (result, None).

(** ** The in-memory storage *)

Module Mem.

(** [memStorage.values]: the records by hash. *)
Abbreviation memStorage := (gmap string Secret).

(** [NewMemStorage()] *)
Definition NewMemStorage : memStorage := ∅.

(** [st.Store(secret, expireAfterViews, expireAfter)] *)
Definition Store (st : memStorage) (hash : string) (now : Time)
    (secret : string) (expireAfterViews expireAfter : Z) : result * memStorage :=
  match NewSecret hash now secret expireAfterViews expireAfter with
  | (_, Some err) => ((zeroSecret, Some err), st)
  | (mSecret, None) => ((mSecret, None), <[Hash mSecret := mSecret]> st)
  end.

(** [st.Get(key)]. [now1] is the clock at the check before the lock and
    [now2] the clock at the check under the lock. The record is reached
    through the pointer kept in the map, so the decrement is a write to the
    map's entry. *)
Definition Get (st : memStorage) (key : string) (now1 now2 : Time) : result * memStorage :=
  match st !! key with
  | None => ((zeroSecret, Some ErrSecretNotAvailable), st)
  | Some mSecret =>
      let expired := ((zeroSecret, Some ErrSecretNotAvailable), delete key st) in
      if IsAvailable now1 mSecret then
        if IsAvailable now2 mSecret then
          let mSecret' := set_RemainingViews (Int64.sub (RemainingViews mSecret) 1) mSecret in
          ((mSecret', None), <[key := mSecret']> st)
        else expired
      else expired
  end.

End Mem.

(** ** The PostgreSQL storage *)

Module Pg.

(** [pq.NullTime] *)
Record NullTime : Type := mkNullTime { NT_Time : Time; NT_Valid : bool }.

(** [pgSecret]: the embedded [Secret] and the column [expires_at]. *)
Record pgSecret : Type := mkPgSecret { pg_Secret : Secret; pg_ExpiresAt : NullTime }.

(** [p.ToSecret()] *)
Definition ToSecret (p : pgSecret) : Secret :=
  if NT_Valid (pg_ExpiresAt p)
  then set_ExpiresAt (NT_Time (pg_ExpiresAt p)) (pg_Secret p)
  else pg_Secret p.

(** A row of the table [secret] without its primary key [id]; [expires_at]
    is the only nullable column. *)
Record row : Type := mkRow {
  secret_text : string;
  created_at : Time;
  expires_at : option Time;
  remaining_views : Z
}.

#[global] Instance row_eq_dec : EqDecision row.
Proof. solve_decision. Defined.

(** The table [secret], by primary key. *)
Abbreviation table := (gmap string row).

(** The column type INTEGER is a 32-bit integer. *)
Definition int4_range (z : Z) : bool := bool_decide (- 2 ^ 31 <= z <= 2 ^ 31 - 1).

(** [nt.Value()]: NULL when the time is not valid. *)
Definition NullTime_Value (nt : NullTime) : option Time :=
  if NT_Valid nt then Some (NT_Time nt) else None.

(** Scanning the column [expires_at] into a [pq.NullTime]. *)
Definition NullTime_Scan (v : option Time) : NullTime :=
  match v with
  | Some t => mkNullTime t true
  | None => mkNullTime zeroTime false
  end.

(** The INSERT of [Store], bound to the fields of [p]. [fault] is the failure
    of the driver, if any; the table rejects a second row with the same key
    and a view count that does not fit the column. Whatever else the server
    refuses (a text that the column does not take) reaches the program as a
    failure of the driver, that is through [fault]; the row keeps the
    timestamps as they are given, the precision of the column is not
    modelled. *)
Definition exec_insert (db : table) (fault : option string) (p : pgSecret) : error + table :=
  match fault with
  | Some msg => inl (ErrDriver msg)
  | None =>
      let s := pg_Secret p in
      match db !! Hash s with
      | Some _ => inl (ErrDriver "pq: duplicate key value violates unique constraint")
      | None =>
          if int4_range (RemainingViews s)
          then inr (<[Hash s := mkRow (SecretText s) (CreatedAt s)
                                  (NullTime_Value (pg_ExpiresAt p)) (RemainingViews s)]> db)
          else inl (ErrDriver "pq: integer out of range")
      end
  end.

(** Scanning the row with key [id] into a [pgSecret]: the columns fill the
    tagged fields, the field [Secret.ExpiresAt] is not a column and keeps
    its zero value. *)
Definition scan_row (id : string) (r : row) : pgSecret :=
  mkPgSecret
    (mkSecret id (secret_text r) (created_at r) zeroTime (remaining_views r))
    (NullTime_Scan (expires_at r)).

(** The SELECT ... FOR UPDATE of [Get]. *)
Definition query_select (db : table) (fault : option string) (key : string) : error + pgSecret :=
  match fault with
  | Some msg => inl (ErrDriver msg)
  | None =>
      match db !! key with
      | None => inl ErrNoRows
      | Some r => inr (scan_row key r)
      end
  end.

(** The UPDATE of [Get]. *)
Definition exec_update (db : table) (fault : option string) (key : string) : error + table :=
  match fault with
  | Some msg => inl (ErrDriver msg)
  | None =>
      match db !! key with
      | None => inr db
      | Some r =>
          if int4_range (remaining_views r - 1)
          then inr (<[key := mkRow (secret_text r) (created_at r) (expires_at r)
                                   (remaining_views r - 1)]> db)
          else inl (ErrDriver "pq: integer out of range")
      end
  end.

(** The DELETE of [Get]. *)
Definition exec_delete (db : table) (fault : option string) (key : string) : error + table :=
  match fault with
  | Some msg => inl (ErrDriver msg)
  | None => inr (delete key db)
  end.

(** What the driver reports during one [Get]: at [Beginx], at the query, at
    the UPDATE or DELETE, and at [Commit]. *)
Record faults : Type := mkFaults {
  begin_fault : option string;
  query_fault : option string;
  exec_fault : option string;
  commit_fault : option string
}.

Definition no_faults : faults := mkFaults None None None None.

(** [NewPgStorage(db)] on an empty table. *)
Definition NewPgStorage : table := ∅.

(** [st.Store(secret, expireAfterViews, expireAfter)] *)
Definition Store (db : table) (fault : option string) (hash : string) (now : Time)
    (secret : string) (expireAfterViews expireAfter : Z) : result * table :=
  match NewSecret hash now secret expireAfterViews expireAfter with
  | (_, Some err) => ((zeroSecret, Some err), db)
  | (s, None) =>
      let pSecret := mkPgSecret s (mkNullTime zeroTime (negb (IsZero (ExpiresAt s)))) in
      match exec_insert db fault pSecret with
      | inl err => ((zeroSecret, Some err), db)
      | inr db' => ((pg_Secret pSecret, None), db')
      end
  end.

(** The body of [st.Get(key)] between [Beginx] and the deferred function:
    the named results [secret] and [err] at the [return], and the table as
    the open transaction sees it. *)
Definition Get_body (db : table) (f : faults) (key : string) (now : Time) : result * table :=
  match query_select db (query_fault f) key with
  | inl err => ((zeroSecret, Some err), db)
  | inr pSecret =>
      let secret := ToSecret pSecret in
      if IsAvailable now secret then
        let secret := set_RemainingViews (Int64.sub (RemainingViews secret) 1) secret in
        match exec_update db (exec_fault f) key with
        | inl err => ((zeroSecret, Some err), db)
        | inr tx => ((secret, None), tx)
        end
      else
        match exec_delete db (exec_fault f) key with
        | inl err => ((zeroSecret, Some err), db)
        | inr tx => ((zeroSecret, Some ErrSecretNotAvailable), tx)
        end
  end.

(** The deferred function of [Get]: it sees the named results of the
    [return] and may overwrite [err] only; [db] is the table before the
    transaction and [tx] the table inside it. On an error of [Commit] the
    source logs it and does nothing else; the transaction is then taken not
    to have been applied. *)
Definition Get_deferred (db tx : table) (f : faults) (secret : Secret) (err : option error)
    : result * table :=
  let commit :=
    match commit_fault f with
    | Some _ => ((secret, Some ErrSecretNotAvailable), db)
    | None => ((secret, err), tx)
    end in
  match err with
  | Some e =>
      if bool_decide (e ≠ ErrSecretNotAvailable)
      then ((secret, Some ErrSecretNotAvailable), db)
      else commit
  | None => commit
  end.

(** [st.Get(key)] *)
Definition Get (db : table) (f : faults) (key : string) (now : Time) : result * table :=
  match begin_fault f with
  | Some _ => ((zeroSecret, Some ErrSecretNotAvailable), db)
  | None =>
      let '((secret, err), tx) := Get_body db f key now in
      Get_deferred db tx f secret err
  end.

End Pg.

(** ** Traces of calls *)

Module MemTrace.

(** A call on the in-memory storage with what it reads from the environment. *)
Inductive op : Type :=
  | OpStore (hash : string) (now : Time) (secret : string) (expireAfterViews expireAfter : Z)
  | OpGet (key : string) (now1 now2 : Time).

Definition step (st : Mem.memStorage) (o : op) : result * Mem.memStorage :=
  match o with
  | OpStore hash now secret views ttl => Mem.Store st hash now secret views ttl
  | OpGet key now1 now2 => Mem.Get st key now1 now2
  end.

(** The results of the calls, in order, and the storage after the last. *)
Fixpoint run (st : Mem.memStorage) (ops : list op) : list result * Mem.memStorage :=
  match ops with
  | [] => ([], st)
  | o :: ops' =>
      let '(r, st') := step st o in
      let '(rs, st'') := run st' ops' in
      (r :: rs, st'')
  end.

(** The arguments of type [int] are 64-bit integers. *)
Definition wf (o : op) : Prop :=
  match o with
  | OpStore _ _ _ views ttl => Int64.in_range views /\ Int64.in_range ttl
  | OpGet _ _ _ => True
  end.

(** A call made at time [t] or later that stores no record under [key]
    (a generated hash is not one in use). *)
Definition after (t : Time) (key : string) (o : op) : Prop :=
  match o with
  | OpStore hash _ _ _ _ => hash <> key
  | OpGet _ now1 now2 => t <= now1 /\ t <= now2
  end.

End MemTrace.

Module PgTrace.

Inductive op : Type :=
  | OpStore (fault : option string) (hash : string) (now : Time)
            (secret : string) (expireAfterViews expireAfter : Z)
  | OpGet (f : Pg.faults) (key : string) (now : Time).

Definition step (db : Pg.table) (o : op) : result * Pg.table :=
  match o with
  | OpStore fault hash now secret views ttl => Pg.Store db fault hash now secret views ttl
  | OpGet f key now => Pg.Get db f key now
  end.

Fixpoint run (db : Pg.table) (ops : list op) : list result * Pg.table :=
  match ops with
  | [] => ([], db)
  | o :: ops' =>
      let '(r, db') := step db o in
      let '(rs, db'') := run db' ops' in
      (r :: rs, db'')
  end.

Definition wf (o : op) : Prop :=
  match o with
  | OpStore _ _ _ _ views ttl => Int64.in_range views /\ Int64.in_range ttl
  | OpGet _ _ _ => True
  end.

Definition after (t : Time) (key : string) (o : op) : Prop :=
  match o with
  | OpStore _ hash _ _ _ _ => hash <> key
  | OpGet _ _ now => t <= now
  end.

End PgTrace.

(** ** Predicates of the statements *)

(** What a creation with valid input returns. *)
Definition created (hash : string) (now : Time) (secret : string) (views ttl : Z) : Secret :=
  mkSecret hash secret now
    (if bool_decide (0 < ttl) then now + Int64.mul ttl Minute else zeroTime) views.

(** The creation fails with [e] through [NewSecret] and through the [Store]
    of both storages, which return the zero secret and keep their state. *)
Definition creation_fails_with (e : error)
    (hash : string) (now : Time) (secret : string) (views ttl : Z) : Prop :=
  NewSecret hash now secret views ttl = (zeroSecret, Some e)
  /\ (forall st : Mem.memStorage,
        Mem.Store st hash now secret views ttl = ((zeroSecret, Some e), st))
  /\ (forall (db : Pg.table) (fault : option string),
        Pg.Store db fault hash now secret views ttl = ((zeroSecret, Some e), db)).

(** The largest TTL, in minutes, whose duration fits 64 bits. *)
Definition max_ttl_minutes : Z := 153722867.

(** The secret as [Get] sees the row with key [id]. *)
Definition row_secret (id : string) (r : Pg.row) : Secret := Pg.ToSecret (Pg.scan_row id r).

(** Every stored counter is a non-negative 64-bit integer. *)
Definition Mem_counters_ok (st : Mem.memStorage) : Prop :=
  forall k s, st !! k = Some s -> 0 <= RemainingViews s <= Int64.max_signed.

(** Every counter of the table is a non-negative value of the column type. *)
Definition Pg_counters_ok (db : Pg.table) : Prop :=
  forall k r, db !! k = Some r -> 0 <= Pg.remaining_views r <= 2 ^ 31 - 1.

(** The hash generated for a [Store] is not in use. *)
Definition Mem_fresh (st : Mem.memStorage) (o : MemTrace.op) : Prop :=
  match o with
  | MemTrace.OpStore hash _ _ _ _ => st !! hash = None
  | MemTrace.OpGet _ _ _ => True
  end.

(** The counter under [k] after a call is at most [v], or the record is gone. *)
Definition Mem_counter_le (st : Mem.memStorage) (k : string) (v : Z) : Prop :=
  match st !! k with
  | Some s => RemainingViews s <= v
  | None => True
  end.

Definition Pg_counter_le (db : Pg.table) (k : string) (v : Z) : Prop :=
  match db !! k with
  | Some r => Pg.remaining_views r <= v
  | None => True
  end.

(** The record under [key] is gone, or still the record [s]. *)
Definition Mem_dead (key : string) (s : Secret) (st : Mem.memStorage) : Prop :=
  st !! key = None \/ st !! key = Some s.

(** The row under [key] is gone, or still the row [r]. *)
Definition Pg_dead (key : string) (r : Pg.row) (db : Pg.table) : Prop :=
  db !! key = None \/ db !! key = Some r.

(** ** The hash key *)

Module Hex.

(** [hextable] of [encoding/hex]. *)
Definition hextable : string := "0123456789abcdef".

(** [hextable[i]], for an index below 16. *)
Definition hextable_at (i : N) : Ascii.ascii :=
  default Ascii.zero (String.get (N.to_nat i) hextable).

(** [hex.EncodeToString(src)]: two digits for each byte, the high four
    bits first. *)
Fixpoint EncodeToString (src : list byte) : string :=
  match src with
  | [] => EmptyString
  | v :: rest =>
      String (hextable_at (N.shiftr (Byte.to_N v) 4))
        (String (hextable_at (N.land (Byte.to_N v) 15)) (EncodeToString rest))
  end.

End Hex.

(** [GenHashKey()], with the 16 bytes [id] that [uuid.New()] returned. *)
Definition GenHashKey (id : list byte) : string := Hex.EncodeToString id.

(** ** The storage interface *)

(** What a call of a storage method reads from its environment: the
    generated hash, the clock (twice in the [Get] of the in-memory storage)
    and, for the PostgreSQL storage, what the driver reports. *)
Record callEnv : Type := mkCallEnv {
  env_hash : string;
  env_now1 : Time;
  env_now2 : Time;
  env_insert_fault : option string;
  env_faults : Pg.faults
}.

(** The interface [Storage]. *)
Class Storage (St : Type) : Type := {
  Storage_Store : St -> callEnv -> string -> Z -> Z -> result * St;
  Storage_Get : St -> callEnv -> string -> result * St
}.

#[global] Instance memStorage_Storage : Storage (gmap string Secret) := {|
  Storage_Store st e secret expireAfterViews expireAfter :=
    Mem.Store st (env_hash e) (env_now1 e) secret expireAfterViews expireAfter;
  Storage_Get st e key := Mem.Get st key (env_now1 e) (env_now2 e)
|}.

#[global] Instance pgStorage_Storage : Storage (gmap string Pg.row) := {|
  Storage_Store db e secret expireAfterViews expireAfter :=
    Pg.Store db (env_insert_fault e) (env_hash e) (env_now1 e)
      secret expireAfterViews expireAfter;
  Storage_Get db e key := Pg.Get db (env_faults e) key (env_now1 e)
|}.

(** ** The HTTP handlers *)

Module App.

(** The two functions that a [Marshaler] of the application holds. *)
Inductive marshalFunc : Type := jsonMarshal | xmlMarshal.

(** [Marshaler]; the function of the zero value is nil. *)
Record Marshaler : Type := mkMarshaler {
  MarshalFunc : option marshalFunc;
  ContentType : string
}.

#[global] Instance marshalFunc_eq_dec : EqDecision marshalFunc.
Proof. solve_decision. Defined.

#[global] Instance Marshaler_eq_dec : EqDecision Marshaler.
Proof. solve_decision. Defined.

(** [Marshaler{}] *)
Definition zeroMarshaler : Marshaler := mkMarshaler None "".

Definition jsonMarshaler : Marshaler := mkMarshaler (Some jsonMarshal) "application/json".
Definition xmlTextMarshaler : Marshaler := mkMarshaler (Some xmlMarshal) "text/xml".
Definition xmlAppMarshaler : Marshaler := mkMarshaler (Some xmlMarshal) "application/xml".

(** [a.Marshalers] after [a.initMarchalers()]. *)
Definition initMarchalers : gmap string Marshaler :=
  list_to_map [
    ("*/*", jsonMarshaler);
    ("application/json", jsonMarshaler);
    ("application/*", jsonMarshaler);
    ("application/xml", xmlAppMarshaler);
    ("text/xml", xmlTextMarshaler);
    ("text/*", xmlTextMarshaler)
  ].

(** [strings.Contains(s, substr)] *)
Fixpoint Contains (s substr : string) : bool :=
  if String.prefix substr s then true
  else match s with
       | EmptyString => false
       | String _ s' => Contains s' substr
       end.

(** [a.getMarshaler(acceptHeader)]. The [range] over the map visits every
    entry once, in an order that the language leaves open: [visit] is the
    order of this call. *)
Fixpoint getMarshaler (visit : list (string * Marshaler)) (acceptHeader : string) : Marshaler :=
  match visit with
  | [] => zeroMarshaler
  | (key, val) :: rest =>
      if Contains acceptHeader key then val else getMarshaler rest acceptHeader
  end.

(** An order in which a [range] may visit the map [m]. *)
Definition range_order (m : gmap string Marshaler) (visit : list (string * Marshaler)) : Prop :=
  visit ≡ₚ map_to_list m.

(** A call on the [http.ResponseWriter], or a panic of the handler. *)
Inductive wcall : Type :=
  | wSetHeader (key value : string)
  | wError (msg : string) (code : Z)
  | wWrite (bytes : string)
  | wPanic.

Definition StatusNotFound : Z := 404.
Definition StatusMethodNotAllowed : Z := 405.

(** What the handlers read of a request: the route variable [hash], whether
    [ParseForm] fails, the form values and the header [Accept]. *)
Record request : Type := mkRequest {
  req_hash : string;
  req_form_err : bool;
  req_form : gmap string string;
  req_accept : string
}.

(** [r.FormValue(key)]: the empty string when the form has no such key. *)
Definition FormValue (r : request) (key : string) : string :=
  default "" (req_form r !! key).

(** The environment of one handler call: that of the storage call, the
    order of the [range] in [getMarshaler] and the error of [w.Write], if
    any. *)
Record handlerEnv : Type := mkHandlerEnv {
  h_call : callEnv;
  h_visit : list (string * Marshaler);
  h_write_err : option string
}.

Section Handlers.

(** [json.Marshal] and [xml.Marshal] on a [Secret]: the error text or the
    bytes. [strconv.Atoi]: [None] is an error. *)
Variables json_Marshal xml_Marshal : Secret -> string + string.
Variable Atoi : string -> option Z.

Context {St : Type} `{!Storage St}.

(** [m.MarshalFunc(data)]; calling the nil function panics. *)
Definition call_MarshalFunc (m : Marshaler) (data : Secret) : option (string + string) :=
  match MarshalFunc m with
  | Some jsonMarshal => Some (json_Marshal data)
  | Some xmlMarshal => Some (xml_Marshal data)
  | None => None
  end.

(** [a.dataResponse(data, w, r)] *)
Definition dataResponse (e : handlerEnv) (data : Secret) (r : request) : list wcall :=
  let m := getMarshaler (h_visit e) (req_accept r) in
  if bool_decide (ContentType m = "")
  then [wError "Accept header is invalid" StatusMethodNotAllowed]
  else
    match call_MarshalFunc m data with
    | None => [wPanic]
    | Some (inl err) => [wError err StatusMethodNotAllowed]
    | Some (inr bytes) =>
        [wSetHeader "Content-type" (ContentType m); wWrite bytes]
        ++ match h_write_err e with
           | Some err => [wError err StatusMethodNotAllowed]
           | None => []
           end
    end.

(** [a.getSecretHandler(w, r)] *)
Definition getSecretHandler (a : St) (e : handlerEnv) (r : request) : list wcall * St :=
  let key := req_hash r in
  let '((s, err), a') := Storage_Get a (h_call e) key in
  match err with
  | Some _ => ([wError "Secret not found" StatusNotFound], a')
  | None => (dataResponse e s r, a')
  end.

(** [a.storeSecretHandler(w, r)] *)
Definition storeSecretHandler (a : St) (e : handlerEnv) (r : request) : list wcall * St :=
  let invalid := [wError "Invalid input" StatusMethodNotAllowed] in
  if req_form_err r then (invalid, a) else
  let secretText := FormValue r "secret" in
  match Atoi (FormValue r "expireAfter") with
  | None => (invalid, a)
  | Some expAfter =>
      match Atoi (FormValue r "expireAfterViews") with
      | None => (invalid, a)
      | Some expAfterViews =>
          let '((secret, err), a') :=
            Storage_Store a (h_call e) secretText expAfterViews expAfter in
          match err with
          | Some _ => (invalid, a')
          | None => (dataResponse e secret r, a')
          end
      end
  end.

End Handlers.

End App.

(** ** Predicates of the further statements *)

(** The expiry time of [s] is unset or later than [now]. *)
Definition not_expired_at (s : Secret) (now : Time) : Prop :=
  ExpiresAt s = zeroTime \/ now < ExpiresAt s.

(** What the [i]-th of a row of [Get]s returns (counting from 0) on a secret
    [s] that has [v] views left: the secret with the views left after it,
    or the error once the views are used up. *)
Definition view_result (s : Secret) (v : Z) (i : nat) : result :=
  if decide (Z.of_nat i < v)
  then (set_RemainingViews (v - 1 - Z.of_nat i) s, None)
  else (zeroSecret, Some ErrSecretNotAvailable).

(** [Get]s on [key], one after the other, with their clock readings. *)
Definition Mem_gets (key : string) (nows : list (Time * Time)) : list MemTrace.op :=
  map (fun n => MemTrace.OpGet key n.1 n.2) nows.

Definition Pg_gets (key : string) (nows : list Time) : list PgTrace.op :=
  map (fun n => PgTrace.OpGet Pg.no_faults key n) nows.

(** The call succeeded. *)
Definition succeeded (r : result) : bool :=
  match r.2 with None => true | Some _ => false end.

(** The number of calls that succeeded. *)
Definition successes (rs : list result) : nat := length (List.filter succeeded rs).

(** The row [r] with [v] views left. *)
Definition set_remaining_views (v : Z) (r : Pg.row) : Pg.row :=
  Pg.mkRow (Pg.secret_text r) (Pg.created_at r) (Pg.expires_at r) v.

(** The hash that a call works on. *)
Definition Mem_op_key (o : MemTrace.op) : string :=
  match o with
  | MemTrace.OpStore hash _ _ _ _ => hash
  | MemTrace.OpGet key _ _ => key
  end.

Definition Pg_op_key (o : PgTrace.op) : string :=
  match o with
  | PgTrace.OpStore _ hash _ _ _ _ => hash
  | PgTrace.OpGet _ key _ => key
  end.

(** Every record is stored under its own hash and has content. *)
Definition Mem_records_ok (st : Mem.memStorage) : Prop :=
  forall k s, st !! k = Some s -> Hash s = k /\ SecretText s <> "".

(** Every row has content. *)
Definition Pg_rows_ok (db : Pg.table) : Prop :=
  forall k r, db !! k = Some r -> Pg.secret_text r <> "".

(** [s'] is [s] but for the view count. *)
Definition same_but_views (s s' : Secret) : Prop :=
  Hash s' = Hash s /\ SecretText s' = SecretText s
  /\ CreatedAt s' = CreatedAt s /\ ExpiresAt s' = ExpiresAt s.

(** The store cut down to the entry of [k]. *)
Definition only_entry {V : Type} (k : string) (m : gmap string V) : gmap string V :=
  from_option (fun v => {[ k := v ]}) ∅ (m !! k).

(** ** The same calls on both storages *)

(** A call of the interface [Storage] for a secret without TTL, with its
    environment; [fault] is what the driver reports to the INSERT when the
    call is made on the PostgreSQL storage. *)
Inductive storageCall : Type :=
  | CallStore (fault : option string) (hash : string) (now : Time)
              (secret : string) (expireAfterViews : Z)
  | CallGet (key : string) (now1 now2 : Time).

(** The call as the in-memory storage receives it. *)
Definition Mem_call (c : storageCall) : MemTrace.op :=
  match c with
  | CallStore _ hash now secret views => MemTrace.OpStore hash now secret views 0
  | CallGet key now1 now2 => MemTrace.OpGet key now1 now2
  end.

(** The call as the PostgreSQL storage receives it; the driver reports no
    failure to a [Get]. *)
Definition Pg_call (c : storageCall) : PgTrace.op :=
  match c with
  | CallStore fault hash now secret views => PgTrace.OpStore fault hash now secret views 0
  | CallGet key now1 _ => PgTrace.OpGet Pg.no_faults key now1
  end.

(** The call did not return an error of the driver. *)
Definition no_driver_error (r : result) : Prop :=
  forall msg, r.2 <> Some (ErrDriver msg).

(** The same error, and the same secret but for the creation time. *)
Definition same_but_creation_time (r1 r2 : result) : Prop :=
  r1.2 = r2.2
  /\ Hash r1.1 = Hash r2.1 /\ SecretText r1.1 = SecretText r2.1
  /\ ExpiresAt r1.1 = ExpiresAt r2.1 /\ RemainingViews r1.1 = RemainingViews r2.1.

(** The row that holds a secret without expiry time. *)
Definition row_of_secret (s : Secret) : Pg.row :=
  Pg.mkRow (SecretText s) (CreatedAt s) None (RemainingViews s).

(** The table holds the records of the map, and these have no expiry time,
    sit under their hash and have a count that fits the column. *)
Definition same_store (st : Mem.memStorage) (db : Pg.table) : Prop :=
  (forall k, db !! k = row_of_secret <$> st !! k)
  /\ (forall k s, st !! k = Some s ->
        Hash s = k /\ ExpiresAt s = zeroTime /\ 0 <= RemainingViews s <= 2 ^ 31 - 1).

(** ** The tests of the package *)

Module Tests.

(** A case of [TestSecret_IsAvailable]. *)
Record availableCase : Type := mkAvailableCase {
  Expected : bool;
  TTL : Z;
  ExpAfterViews : Z
}.

Definition remainingViews : Z := 100.
Definition expiresDelta : Z := 100.
Definition secretText : string := "secret".
Definition goroutines : Z := 10000.

(** The cases of [TestSecret_IsAvailable], by name. *)
Definition availableCases : list (string * availableCase) := [
  ("TTL forever, ExpiresAfterViews > 0", mkAvailableCase true 0 remainingViews);
  ("TTL in future, ExpiresAfterViews > 0", mkAvailableCase true expiresDelta remainingViews);
  ("TTL in past, ExpiresAfterViews > 0", mkAvailableCase false (- expiresDelta) remainingViews);
  ("TTL forever, ExpiresAfterViews == 0", mkAvailableCase false 0 0);
  ("TTL in future, ExpiresAfterViews == 0", mkAvailableCase false expiresDelta 0);
  ("TTL in past, ExpiresAfterViews == 0", mkAvailableCase false (- expiresDelta) 0)
].

(** The body of a case of [TestSecret_IsAvailable]: [true] when the case
    does not fail. [now0] is the clock when the expiry time is computed and
    [now] the clock inside [IsAvailable]. *)
Definition availableCase_passes (now0 now : Time) (tst : availableCase) : bool :=
  let expAt :=
    if bool_decide (TTL tst <> 0) then Add now0 (Int64.mul (TTL tst) Minute) else zeroTime in
  let s := mkSecret "" "" zeroTime expAt (ExpAfterViews tst) in
  bool_decide (IsAvailable now s = Expected tst).

(** A case of [TestNewSecret]. *)
Record newSecretCase : Type := mkNewSecretCase {
  SecretText_ : string;
  ExpiresAfter : Z;
  ExpiresAfterViews : Z;
  ExpError : option error
}.

Definition newSecretCases : list (string * newSecretCase) := [
  ("correct", mkNewSecretCase secretText expiresDelta remainingViews None);
  ("correct, forever TTL", mkNewSecretCase secretText 0 remainingViews None);
  ("wrong secret text", mkNewSecretCase "" expiresDelta remainingViews (Some ErrEmptySecret));
  ("wrong expires after",
   mkNewSecretCase secretText (- expiresDelta) remainingViews (Some ErrInvalidExpireAfter));
  ("wrong expires after views",
   mkNewSecretCase secretText expiresDelta 0 (Some ErrInvalidExpireAfterViews))
].

(** The body of a case of [TestNewSecret]. *)
Definition newSecretCase_passes (hash : string) (now : Time) (tst : newSecretCase) : bool :=
  let '(_, e) := NewSecret hash now (SecretText_ tst) (ExpiresAfterViews tst) (ExpiresAfter tst) in
  bool_decide (e = ExpError tst).

(** [integrationStorageTest] on the in-memory storage when its [Get]s run
    one after the other, with the clock readings [nows]: [true] when the
    test does not fail. *)
Definition integrationStorageTest_sequential
    (hash : string) (now : Time) (nows : list (Time * Time)) : bool :=
  let '((secret, err), storage) :=
    Mem.Store Mem.NewMemStorage hash now secretText remainingViews expiresDelta in
  match err with
  | Some _ => false
  | None =>
      let results := (MemTrace.run storage (Mem_gets (Hash secret) nows)).1 in
      let resultsAmount :=
        length (List.filter
                  (fun r : result =>
                     match r.2 with
                     | None => bool_decide (Hash r.1 = Hash secret)
                     | Some _ => false
                     end) results) in
      bool_decide (Z.of_nat resultsAmount = remainingViews)
  end.

End Tests.

(** * Properties *)

(** ** Machine integers *)

Module Int64Facts.

Lemma wrap64_id z : Int64.in_range z -> Int64.wrap64 z = z.
Proof.
  unfold Int64.in_range, Int64.min_signed, Int64.max_signed, Int64.wrap64. intros Hz.
  rewrite Z.mod_small; lia.
Qed.

Lemma wrap64_range z : Int64.in_range (Int64.wrap64 z).
Proof.
  unfold Int64.in_range, Int64.min_signed, Int64.max_signed, Int64.wrap64.
  pose proof (Z.mod_pos_bound (z + 2 ^ 63) (2 ^ 64) ltac:(lia)). lia.
Qed.

(** [x--] on a positive counter never wraps. *)
Lemma sub_one_pos v : Int64.in_range v -> 0 < v -> Int64.sub v 1 = v - 1.
Proof.
  unfold Int64.sub, Int64.in_range, Int64.min_signed, Int64.max_signed. intros Hv Hpos.
  apply wrap64_id. unfold Int64.in_range, Int64.min_signed, Int64.max_signed. lia.
Qed.

End Int64Facts.

(** ** Availability *)

Lemma IsZero_true t : IsZero t = true <-> t = zeroTime.
Proof. unfold IsZero. apply bool_decide_eq_true. Qed.

Lemma After_true t u : After t u = true <-> u < t.
Proof. unfold After. apply bool_decide_eq_true. Qed.

Lemma IsAvailable_true now s :
  IsAvailable now s = true <->
  (ExpiresAt s = zeroTime \/ now < ExpiresAt s) /\ 0 < RemainingViews s.
Proof.
  unfold IsAvailable.
  rewrite andb_true_iff, orb_true_iff, IsZero_true, After_true, bool_decide_eq_true.
  reflexivity.
Qed.

Lemma IsAvailable_false now s :
  IsAvailable now s = false <->
  (ExpiresAt s <> zeroTime /\ ExpiresAt s <= now) \/ RemainingViews s <= 0.
Proof.
  rewrite <- not_true_iff_false, IsAvailable_true. unfold zeroTime.
  destruct (decide (ExpiresAt s = 0)); lia.
Qed.

(** Once unavailable, unavailable at every later time. *)
Lemma IsAvailable_later t now s :
  IsAvailable t s = false -> t <= now -> IsAvailable now s = false.
Proof. rewrite !IsAvailable_false. lia. Qed.

(** C2. [IsAvailable] answers true exactly when the expiry time is unset or
    later than the current time and the view count is positive. It returns
    the boolean only: it reads the fields [ExpiresAt] and [RemainingViews]
    of the secret and writes none, so that two secrets that agree on both
    get the same answer. *)
Theorem IsAvailable_spec (now : Time) (s : Secret) :
  (IsAvailable now s = true <->
   (ExpiresAt s = zeroTime \/ now < ExpiresAt s) /\ 0 < RemainingViews s)
  /\ (forall s' : Secret,
        ExpiresAt s' = ExpiresAt s -> RemainingViews s' = RemainingViews s ->
        IsAvailable now s' = IsAvailable now s).
Proof.
  split; [apply IsAvailable_true |].
  intros s' He Hv. unfold IsAvailable. now rewrite He, Hv.
Qed.

Lemma IsAvailable_spec_witness :
  let s := mkSecret "a3f1" "secret" 1000 7000 2 in
  (IsAvailable 5000 s = true <->
   (ExpiresAt s = zeroTime \/ 5000 < ExpiresAt s) /\ 0 < RemainingViews s)
  /\ IsAvailable 5000 (mkSecret "" "" 0 7000 2) = IsAvailable 5000 s.
Proof.
  intros s. destruct (IsAvailable_spec 5000 s) as [H1 H2].
  split; [exact H1 | apply H2; reflexivity].
Defined.

(** ** Creation *)

Lemma NewSecret_empty hash now views ttl :
  NewSecret hash now "" views ttl = (zeroSecret, Some ErrEmptySecret).
Proof. reflexivity. Qed.

Lemma NewSecret_views hash now secret views ttl :
  secret <> "" -> views < 1 ->
  NewSecret hash now secret views ttl = (zeroSecret, Some ErrInvalidExpireAfterViews).
Proof.
  intros Hs Hv. unfold NewSecret.
  rewrite bool_decide_eq_false_2 by done. now rewrite bool_decide_eq_true_2 by done.
Qed.

Lemma NewSecret_ttl hash now secret views ttl :
  secret <> "" -> 1 <= views -> ttl < 0 ->
  NewSecret hash now secret views ttl = (zeroSecret, Some ErrInvalidExpireAfter).
Proof.
  intros Hs Hv Ht. unfold NewSecret.
  rewrite bool_decide_eq_false_2 by done. rewrite bool_decide_eq_false_2 by lia.
  now rewrite bool_decide_eq_true_2 by done.
Qed.

Lemma NewSecret_valid hash now secret views ttl :
  secret <> "" -> 1 <= views -> 0 <= ttl ->
  NewSecret hash now secret views ttl = (created hash now secret views ttl, None).
Proof.
  intros Hs Hv Ht. unfold NewSecret, created.
  rewrite bool_decide_eq_false_2 by done. rewrite bool_decide_eq_false_2 by lia.
  rewrite bool_decide_eq_false_2 by lia.
  now destruct (bool_decide (0 < ttl)).
Qed.

(** [NewSecret] fails exactly on invalid input. *)
Lemma NewSecret_error_iff hash now secret views ttl :
  (NewSecret hash now secret views ttl).2 <> None <->
  secret = "" \/ views < 1 \/ ttl < 0.
Proof.
  destruct (decide (secret = "")) as [->|Hs].
  { rewrite NewSecret_empty. simpl. split; [auto | done]. }
  destruct (decide (views < 1)) as [Hv|Hv].
  { rewrite NewSecret_views by done. simpl. split; [auto | done]. }
  destruct (decide (ttl < 0)) as [Ht|Ht].
  { rewrite NewSecret_ttl by (done || lia). simpl. split; [auto | done]. }
  rewrite NewSecret_valid by (done || lia). simpl. split; [done |].
  intros [? | [? | ?]]; done.
Qed.

Lemma Mem_Store_error st hash now secret views ttl e :
  (NewSecret hash now secret views ttl) = (zeroSecret, Some e) ->
  Mem.Store st hash now secret views ttl = ((zeroSecret, Some e), st).
Proof. intros H. unfold Mem.Store. now rewrite H. Qed.

Lemma Mem_Store_valid st hash now secret views ttl :
  secret <> "" -> 1 <= views -> 0 <= ttl ->
  Mem.Store st hash now secret views ttl =
  ((created hash now secret views ttl, None),
   <[hash := created hash now secret views ttl]> st).
Proof. intros Hs Hv Ht. unfold Mem.Store. now rewrite NewSecret_valid. Qed.

Lemma Pg_Store_error db fault hash now secret views ttl e :
  (NewSecret hash now secret views ttl) = (zeroSecret, Some e) ->
  Pg.Store db fault hash now secret views ttl = ((zeroSecret, Some e), db).
Proof. intros H. unfold Pg.Store. now rewrite H. Qed.

Lemma creation_fails_with_intro e hash now secret views ttl :
  NewSecret hash now secret views ttl = (zeroSecret, Some e) ->
  creation_fails_with e hash now secret views ttl.
Proof.
  intros H. split; [exact H |]. split.
  - intros st. now apply Mem_Store_error.
  - intros db fault. now apply Pg_Store_error.
Qed.

(** C3. Creation checks the content first, then the view count, then the
    TTL, on [NewSecret] and on the [Store] of both storages: empty content
    gives [ErrEmptySecret] whatever the other arguments are; non-empty
    content with a view count below 1 gives [ErrInvalidExpireAfterViews]
    whatever the TTL is; non-empty content, a view count of at least 1 and a
    negative TTL give [ErrInvalidExpireAfter]. *)
Theorem creation_validation_order
    (hash : string) (now : Time) (secret : string) (views ttl : Z) :
  (secret = "" -> creation_fails_with ErrEmptySecret hash now secret views ttl)
  /\ (secret <> "" -> views < 1 ->
      creation_fails_with ErrInvalidExpireAfterViews hash now secret views ttl)
  /\ (secret <> "" -> 1 <= views -> ttl < 0 ->
      creation_fails_with ErrInvalidExpireAfter hash now secret views ttl).
Proof.
  split; [| split].
  - intros ->. apply creation_fails_with_intro, NewSecret_empty.
  - intros Hs Hv. now apply creation_fails_with_intro, NewSecret_views.
  - intros Hs Hv Ht. now apply creation_fails_with_intro, NewSecret_ttl.
Qed.

Lemma creation_validation_order_witness :
  creation_fails_with ErrEmptySecret "9f2c" 100 "" 0 (-1)
  /\ creation_fails_with ErrInvalidExpireAfterViews "9f2c" 100 "x" 0 (-1)
  /\ creation_fails_with ErrInvalidExpireAfter "9f2c" 100 "x" 5 (-1).
Proof.
  split; [| split].
  - apply (creation_validation_order "9f2c" 100 "" 0 (-1)). reflexivity.
  - apply (creation_validation_order "9f2c" 100 "x" 0 (-1)); [discriminate | lia].
  - apply (creation_validation_order "9f2c" 100 "x" 5 (-1)); [discriminate | lia | lia].
Defined.

(** C10. The [Store] of the in-memory storage returns an error exactly when
    the input is invalid. On valid input it returns the new secret, which
    carries the generated hash, and the map afterwards is the map before
    with that secret under its hash, so the lookup of a following [Get]
    finds it. *)
Theorem Mem_Store_total
    (st : Mem.memStorage) (hash : string) (now : Time) (secret : string) (views ttl : Z) :
  ((Mem.Store st hash now secret views ttl).1.2 <> None <->
   secret = "" \/ views < 1 \/ ttl < 0)
  /\ (secret <> "" -> 1 <= views -> 0 <= ttl ->
      exists s : Secret,
        Mem.Store st hash now secret views ttl = ((s, None), <[hash := s]> st)
        /\ Hash s = hash /\ SecretText s = secret /\ RemainingViews s = views
        /\ (Mem.Store st hash now secret views ttl).2 !! Hash s = Some s).
Proof.
  split.
  - rewrite <- (NewSecret_error_iff hash now). unfold Mem.Store.
    destruct (NewSecret hash now secret views ttl) as [s [e|]]; simpl; reflexivity.
  - intros Hs Hv Ht. exists (created hash now secret views ttl).
    rewrite Mem_Store_valid by done. simpl.
    repeat split. apply lookup_insert_eq.
Qed.

Lemma Mem_Store_total_witness :
  exists s : Secret,
    Mem.Store ∅ "9f2c" 100 "secret" 5 10 = ((s, None), <[ "9f2c" := s]> ∅)
    /\ Hash s = "9f2c" /\ SecretText s = "secret" /\ RemainingViews s = 5
    /\ (Mem.Store ∅ "9f2c" 100 "secret" 5 10).2 !! Hash s = Some s.
Proof.
  apply (Mem_Store_total ∅ "9f2c" 100 "secret" 5 10); [discriminate | lia | lia].
Defined.

(** ** Reading from the in-memory storage *)

Lemma Mem_Get_absent (st : Mem.memStorage) key now1 now2 :
  st !! key = None ->
  Mem.Get st key now1 now2 = ((zeroSecret, Some ErrSecretNotAvailable), st).
Proof. intros H. unfold Mem.Get. now rewrite H. Qed.

Lemma Mem_Get_unavailable (st : Mem.memStorage) key s now1 now2 :
  st !! key = Some s ->
  IsAvailable now1 s = false \/ IsAvailable now2 s = false ->
  Mem.Get st key now1 now2 = ((zeroSecret, Some ErrSecretNotAvailable), delete key st).
Proof.
  intros H Hu. unfold Mem.Get. rewrite H.
  destruct (IsAvailable now1 s), (IsAvailable now2 s); try reflexivity.
  destruct Hu; discriminate.
Qed.

Lemma Mem_Get_available (st : Mem.memStorage) key s now1 now2 :
  st !! key = Some s ->
  IsAvailable now1 s = true -> IsAvailable now2 s = true ->
  Mem.Get st key now1 now2 =
  ((set_RemainingViews (Int64.sub (RemainingViews s) 1) s, None),
   <[key := set_RemainingViews (Int64.sub (RemainingViews s) 1) s]> st).
Proof. intros H H1 H2. unfold Mem.Get. now rewrite H, H1, H2. Qed.

(** The [Get] that takes the last view leaves the record in the map with a
    counter of 0: from then on the secret is not available. *)
Lemma Mem_Get_last_view (st : Mem.memStorage) key s now1 now2 :
  st !! key = Some s -> RemainingViews s = 1 ->
  IsAvailable now1 s = true -> IsAvailable now2 s = true ->
  exists s' st',
    Mem.Get st key now1 now2 = ((s', None), st')
    /\ RemainingViews s' = 0 /\ st' !! key = Some s'
    /\ forall t, IsAvailable t s' = false.
Proof.
  intros Hk Hv H1 H2. rewrite (Mem_Get_available _ _ s) by done.
  eexists _, _. split; [reflexivity |].
  assert (Hz : Int64.sub (RemainingViews s) 1 = 0) by now rewrite Hv.
  split; [exact Hz |]. split; [apply lookup_insert_eq |].
  intros t. apply IsAvailable_false. right. simpl. rewrite Hz. done.
Qed.

(** C4. On the in-memory storage, a [Store] with valid input and a view
    count of at least 2 succeeds, and a [Get] on the returned hash made
    while the secret has not expired succeeds too: it returns the stored
    content and a view count one below the count given at creation, which
    is also the count left in the map. *)
Theorem Mem_Store_Get_roundtrip
    (st : Mem.memStorage) (hash : string) (now : Time) (secret : string) (views ttl : Z)
    (now1 now2 : Time) :
  secret <> "" -> 2 <= views -> 0 <= ttl -> Int64.in_range views ->
  now1 <= now2 ->
  (ExpiresAt (Mem.Store st hash now secret views ttl).1.1 = zeroTime
   \/ now2 < ExpiresAt (Mem.Store st hash now secret views ttl).1.1) ->
  exists s st' s' st'',
    Mem.Store st hash now secret views ttl = ((s, None), st')
    /\ Mem.Get st' (Hash s) now1 now2 = ((s', None), st'')
    /\ SecretText s = secret
    /\ SecretText s' = secret
    /\ RemainingViews s = views
    /\ RemainingViews s' = views - 1
    /\ Hash s' = Hash s
    /\ st'' !! Hash s = Some s'.
Proof.
  intros Hs Hv Ht Hr Hn Hexp.
  rewrite Mem_Store_valid in * by (done || lia).
  set (s := created hash now secret views ttl) in *.
  change (ExpiresAt s = zeroTime \/ now2 < ExpiresAt s) in Hexp.
  exists s, (<[hash := s]> st), (set_RemainingViews (views - 1) s),
    (<[hash := set_RemainingViews (views - 1) s]> (<[hash := s]> st)).
  split; [reflexivity |].
  assert (Ha2 : IsAvailable now2 s = true).
  { apply IsAvailable_true. split; [exact Hexp | simpl; lia]. }
  assert (Ha1 : IsAvailable now1 s = true).
  { apply IsAvailable_true. split; [| simpl; lia]. destruct Hexp; [auto | right; lia]. }
  rewrite (Mem_Get_available _ _ s) by (try done; apply lookup_insert_eq).
  simpl. rewrite Int64Facts.sub_one_pos by (done || lia).
  repeat split. apply lookup_insert_eq.
Qed.

Lemma Mem_Store_Get_roundtrip_witness :
  exists s st' s' st'',
    Mem.Store ∅ "9f2c" 100 "secret" 2 0 = ((s, None), st')
    /\ Mem.Get st' (Hash s) 200 300 = ((s', None), st'')
    /\ SecretText s = "secret"
    /\ SecretText s' = "secret"
    /\ RemainingViews s = 2
    /\ RemainingViews s' = 2 - 1
    /\ Hash s' = Hash s
    /\ st'' !! Hash s = Some s'.
Proof.
  apply (Mem_Store_Get_roundtrip ∅ "9f2c" 100 "secret" 2 0 200 300);
    [discriminate | lia | lia | split; vm_compute; discriminate
    | lia | left; reflexivity].
Defined.

(** ** Expiry time of a new secret *)

Lemma mul_Minute_exact ttl :
  0 <= ttl <= max_ttl_minutes -> Int64.mul ttl Minute = ttl * Minute.
Proof.
  unfold max_ttl_minutes, Minute, Int64.mul. intros H.
  apply Int64Facts.wrap64_id. unfold Int64.in_range, Int64.min_signed, Int64.max_signed. lia.
Qed.

(** With a TTL of 0 the expiry time stays unset. *)
Lemma NewSecret_ttl_zero hash now secret views :
  secret <> "" -> 1 <= views ->
  exists s, NewSecret hash now secret views 0 = (s, None) /\ ExpiresAt s = zeroTime.
Proof.
  intros Hs Hv. rewrite NewSecret_valid by (done || lia).
  eexists. split; [reflexivity | reflexivity].
Qed.

(** A secret without expiry time is read at any time while views remain. *)
Lemma Mem_Get_never_expires (st : Mem.memStorage) key s now1 now2 :
  st !! key = Some s -> ExpiresAt s = zeroTime -> 0 < RemainingViews s ->
  exists s' st', Mem.Get st key now1 now2 = ((s', None), st').
Proof.
  intros H He Hv.
  rewrite (Mem_Get_available _ _ s) by (try done; apply IsAvailable_true; auto).
  eauto.
Qed.

(** With a TTL between 1 and [max_ttl_minutes] the expiry time is the
    creation time plus the TTL in minutes. *)
Lemma NewSecret_ttl_in_range hash now secret views ttl :
  secret <> "" -> 1 <= views -> 0 < ttl <= max_ttl_minutes ->
  exists s, NewSecret hash now secret views ttl = (s, None)
            /\ CreatedAt s = now /\ ExpiresAt s = CreatedAt s + ttl * Minute.
Proof.
  intros Hs Hv Ht. rewrite NewSecret_valid by (done || lia).
  eexists. split; [reflexivity |]. simpl.
  rewrite bool_decide_eq_true_2 by lia. rewrite mul_Minute_exact by lia. done.
Qed.

(** C7, at the failing input. A TTL of 153722868 minutes is valid input, and
    its product with [time.Minute] does not fit the 64 bits of a
    [time.Duration]: the expiry time of the created secret is not the
    creation time plus that many minutes, it lies before the creation
    time. *)
Theorem NewSecret_ttl_overflow (hash : string) (now : Time) :
  let s := (NewSecret hash now "x" 5 153722868).1 in
  (NewSecret hash now "x" 5 153722868).2 = None
  /\ CreatedAt s = now
  /\ ExpiresAt s = CreatedAt s - 9223371993709551616
  /\ ExpiresAt s <> CreatedAt s + 153722868 * Minute
  /\ ExpiresAt s < CreatedAt s.
Proof.
  assert (Hmul : Int64.mul 153722868 Minute = - 9223371993709551616) by reflexivity.
  rewrite NewSecret_valid by (done || lia).
  cbn [fst snd created ExpiresAt CreatedAt]. rewrite Hmul.
  rewrite bool_decide_eq_true_2 by lia.
  unfold Minute. repeat split; lia.
Qed.

(** Such a secret is stored, and a [Get] at the very time of its creation
    finds it expired and removes it. *)
Example Mem_Get_after_ttl_overflow :
  let now := 63900000000000000000 in
  exists s st,
    Mem.Store ∅ "9f2c" now "x" 5 153722868 = ((s, None), st)
    /\ Mem.Get st "9f2c" now now = ((zeroSecret, Some ErrSecretNotAvailable), ∅).
Proof.
  intros now. rewrite Mem_Store_valid by (done || lia).
  eexists _, _. split; [reflexivity |].
  erewrite Mem_Get_unavailable; [| apply lookup_insert_eq | left; reflexivity].
  now rewrite delete_insert_eq, delete_empty.
Qed.

(** ** Reading an unknown hash *)

Lemma Pg_Get_absent (db : Pg.table) f key now :
  db !! key = None ->
  Pg.Get db f key now = ((zeroSecret, Some ErrSecretNotAvailable), db).
Proof.
  intros H. unfold Pg.Get, Pg.Get_body, Pg.query_select.
  destruct f as [[b|] [q|] x c]; simpl; try reflexivity.
  rewrite H. reflexivity.
Qed.

(** C1, as the code has it. There is one error value for every failed read,
    [ErrSecretNotAvailable]: a [Get] on a hash that the store does not hold
    fails with it, returns the zero secret and leaves the store as it was,
    on the in-memory storage and, whatever the driver reports, on the
    PostgreSQL storage. *)
Theorem Get_unknown_hash
    (st : Mem.memStorage) (db : Pg.table) (f : Pg.faults) (key : string) (now1 now2 : Time) :
  st !! key = None -> db !! key = None ->
  Mem.Get st key now1 now2 = ((zeroSecret, Some ErrSecretNotAvailable), st)
  /\ Pg.Get db f key now1 = ((zeroSecret, Some ErrSecretNotAvailable), db).
Proof.
  intros Hst Hdb. split; [now apply Mem_Get_absent | now apply Pg_Get_absent].
Qed.

Lemma Get_unknown_hash_witness :
  Mem.Get ∅ "9f2c" 100 101 = ((zeroSecret, Some ErrSecretNotAvailable), ∅)
  /\ Pg.Get ∅ Pg.no_faults "9f2c" 100 = ((zeroSecret, Some ErrSecretNotAvailable), ∅).
Proof.
  apply (Get_unknown_hash ∅ ∅ Pg.no_faults "9f2c" 100 101); reflexivity.
Defined.

(** C1, as stated, fails: on the empty store no [Get] returns an error other
    than [ErrSecretNotAvailable]. *)
Lemma Get_unknown_hash_no_other_error :
  ~ (exists e : error,
       e <> ErrSecretNotAvailable /\ (Mem.Get ∅ "9f2c" 100 101).1.2 = Some e)
  /\ ~ (exists e : error,
          e <> ErrSecretNotAvailable /\ (Pg.Get ∅ Pg.no_faults "9f2c" 100).1.2 = Some e).
Proof.
  split; intros [e [Hne He]]; apply Hne; vm_compute in He; congruence.
Qed.

(** ** Errors of the PostgreSQL storage *)

(** The deferred function turns every error into [ErrSecretNotAvailable]. *)
Lemma Pg_Get_deferred_error db tx f secret err e :
  (Pg.Get_deferred db tx f secret err).1.2 = Some e -> e = ErrSecretNotAvailable.
Proof.
  unfold Pg.Get_deferred.
  destruct err as [e'|], (Pg.commit_fault f) as [c|]; simpl;
    try case_bool_decide; simpl; try congruence.
Qed.

Lemma Pg_Get_error db f key now e :
  (Pg.Get db f key now).1.2 = Some e -> e = ErrSecretNotAvailable.
Proof.
  unfold Pg.Get. destruct (Pg.begin_fault f); simpl; [congruence |].
  destruct (Pg.Get_body db f key now) as [[secret err] tx].
  apply Pg_Get_deferred_error.
Qed.

(** A failure of the driver anywhere in [Get] leaves the table as it was
    and is reported as [ErrSecretNotAvailable]. *)
Lemma Pg_Get_fault db f key now :
  f <> Pg.no_faults ->
  (Pg.Get db f key now).1.2 = Some ErrSecretNotAvailable /\ (Pg.Get db f key now).2 = db.
Proof.
  intros Hf. unfold Pg.Get, Pg.Get_body, Pg.query_select, Pg.exec_update, Pg.exec_delete,
    Pg.Get_deferred.
  destruct f as [[b|] [q|] [x|] [c|]]; simpl; try done;
    destruct (db !! key) as [r|]; simpl; try done;
    repeat (case_match; simplify_eq/=; try done).
Qed.

(** C8. On the PostgreSQL storage every error that [Get] returns is
    [ErrSecretNotAvailable], and a failure of the driver at [Beginx], at the
    query, at the UPDATE or DELETE or at [Commit] makes [Get] return it;
    [Store] on valid input returns the error of the INSERT as the driver
    gave it. *)
Theorem Pg_error_propagation
    (db : Pg.table) (f : Pg.faults) (key : string) (now : Time)
    (msg hash secret : string) (views ttl : Z) :
  (forall e, (Pg.Get db f key now).1.2 = Some e -> e = ErrSecretNotAvailable)
  /\ (f <> Pg.no_faults -> (Pg.Get db f key now).1.2 = Some ErrSecretNotAvailable)
  /\ (secret <> "" -> 1 <= views -> 0 <= ttl ->
      Pg.Store db (Some msg) hash now secret views ttl
      = ((zeroSecret, Some (ErrDriver msg)), db)).
Proof.
  split; [| split].
  - intros e. apply Pg_Get_error.
  - intros Hf. now apply Pg_Get_fault.
  - intros Hs Hv Ht. unfold Pg.Store. now rewrite NewSecret_valid.
Qed.

Lemma Pg_error_propagation_witness :
  (Pg.Get ∅ (Pg.mkFaults None (Some "driver: bad connection") None None) "9f2c" 100).1.2
  = Some ErrSecretNotAvailable
  /\ Pg.Store ∅ (Some "driver: bad connection") "9f2c" 100 "secret" 5 10
     = ((zeroSecret, Some (ErrDriver "driver: bad connection")), ∅).
Proof.
  split.
  - apply (Pg_error_propagation ∅ (Pg.mkFaults None (Some "driver: bad connection") None None)
             "9f2c" 100 "" "" "" 0 0).
    discriminate.
  - apply (Pg_error_propagation ∅ Pg.no_faults "9f2c" 100
             "driver: bad connection" "9f2c" "secret" 5 10); [discriminate | lia | lia].
Defined.

(** ** The secret returned with an error *)

Lemma NewSecret_cases hash now secret views ttl :
  (exists e, NewSecret hash now secret views ttl = (zeroSecret, Some e))
  \/ (secret <> "" /\ 1 <= views /\ 0 <= ttl
      /\ NewSecret hash now secret views ttl = (created hash now secret views ttl, None)).
Proof.
  destruct (decide (secret = "")) as [->|Hs]; [left; eexists; apply NewSecret_empty |].
  destruct (decide (views < 1)) as [Hv|Hv]; [left; eexists; now apply NewSecret_views |].
  destruct (decide (ttl < 0)) as [Ht|Ht]; [left; eexists; apply NewSecret_ttl; (done || lia) |].
  right. repeat split; try lia; try done. apply NewSecret_valid; (done || lia).
Qed.

Lemma row_secret_views id r : RemainingViews (row_secret id r) = Pg.remaining_views r.
Proof. unfold row_secret, Pg.ToSecret, Pg.scan_row. simpl. now destruct (Pg.expires_at r). Qed.

(** Everywhere but at a failed [Commit], an error comes with the zero
    secret. *)
Lemma error_with_zero_secret
    (st : Mem.memStorage) (db : Pg.table) (fault : option string) (f : Pg.faults)
    (hash key secret : string) (now now1 now2 : Time) (views ttl : Z) :
  ((NewSecret hash now secret views ttl).2 <> None ->
   (NewSecret hash now secret views ttl).1 = zeroSecret)
  /\ ((Mem.Store st hash now secret views ttl).1.2 <> None ->
      (Mem.Store st hash now secret views ttl).1.1 = zeroSecret)
  /\ ((Mem.Get st key now1 now2).1.2 <> None ->
      (Mem.Get st key now1 now2).1.1 = zeroSecret)
  /\ ((Pg.Store db fault hash now secret views ttl).1.2 <> None ->
      (Pg.Store db fault hash now secret views ttl).1.1 = zeroSecret)
  /\ ((Pg.Get db f key now).1.2 <> None -> Pg.commit_fault f = None ->
      (Pg.Get db f key now).1.1 = zeroSecret).
Proof.
  repeat apply conj.
  - destruct (NewSecret_cases hash now secret views ttl) as [[e ->]|(_ & _ & _ & ->)]; done.
  - unfold Mem.Store.
    destruct (NewSecret_cases hash now secret views ttl) as [[e ->]|(_ & _ & _ & ->)]; done.
  - unfold Mem.Get. repeat (case_match; simpl; try done).
  - unfold Pg.Store, Pg.exec_insert.
    destruct (NewSecret_cases hash now secret views ttl) as [[e ->]|(_ & _ & _ & ->)];
      [done |]. repeat (case_match; simplify_eq/=; try done).
  - intros Herr Hc. revert Herr.
    unfold Pg.Get, Pg.Get_body, Pg.query_select, Pg.exec_update, Pg.exec_delete,
      Pg.Get_deferred. rewrite Hc.
    repeat (case_match; simplify_eq/=; try done).
Qed.

(** C9, at the failing input. The table holds a secret with two views left;
    the UPDATE succeeds and [Commit] fails. [Get] returns the error
    [ErrSecretNotAvailable] together with the secret it read, content
    included, and not the zero secret; the table is as before. *)
Theorem Pg_Get_commit_failure_returns_secret :
  let db : Pg.table := {[ "9f2c" := Pg.mkRow "secret" 100 None 2 ]} in
  let f := Pg.mkFaults None None None (Some "driver: bad connection") in
  Pg.Get db f "9f2c" 200
  = ((mkSecret "9f2c" "secret" 100 zeroTime 1, Some ErrSecretNotAvailable), db)
  /\ (Pg.Get db f "9f2c" 200).1.1 <> zeroSecret.
Proof. split; [reflexivity | discriminate]. Qed.

(** ** What a call changes in the store *)

Lemma Mem_Store_lookup_ne (st : Mem.memStorage) hash now secret views ttl k :
  hash <> k -> (Mem.Store st hash now secret views ttl).2 !! k = st !! k.
Proof.
  intros Hne. unfold Mem.Store.
  destruct (NewSecret_cases hash now secret views ttl) as [[e ->]|(_ & _ & _ & ->)];
    [done |]. simpl. now rewrite lookup_insert_ne.
Qed.

Lemma Mem_Get_lookup_ne (st : Mem.memStorage) key now1 now2 k :
  key <> k -> (Mem.Get st key now1 now2).2 !! k = st !! k.
Proof.
  intros Hne. unfold Mem.Get.
  repeat (case_match; simpl; try done);
    solve [now rewrite lookup_insert_ne | now rewrite lookup_delete_ne].
Qed.

(** A successful [Get] read a record with a positive count and took one
    view from it. *)
Lemma Mem_Get_success (st : Mem.memStorage) key now1 now2 s' st' :
  Mem.Get st key now1 now2 = ((s', None), st') ->
  exists s, st !! key = Some s /\ 0 < RemainingViews s
            /\ IsAvailable now1 s = true /\ IsAvailable now2 s = true
            /\ s' = set_RemainingViews (Int64.sub (RemainingViews s) 1) s
            /\ st' = <[key := s']> st.
Proof.
  unfold Mem.Get. destruct (st !! key) as [s|] eqn:Hk; [| done].
  destruct (IsAvailable now1 s) eqn:H1; [| done].
  destruct (IsAvailable now2 s) eqn:H2; [| done].
  intros [= <- <-]. exists s. pose proof H1 as H1'.
  apply IsAvailable_true in H1' as [_ Hv]. done.
Qed.

Lemma Pg_Store_lookup_ne (db : Pg.table) fault hash now secret views ttl k :
  hash <> k -> (Pg.Store db fault hash now secret views ttl).2 !! k = db !! k.
Proof.
  intros Hne. unfold Pg.Store, Pg.exec_insert.
  destruct (NewSecret_cases hash now secret views ttl) as [[e ->]|(_ & _ & _ & ->)];
    [done |]. simpl.
  destruct fault; [done |]. destruct (db !! hash); [done |].
  destruct (Pg.int4_range views); [| done]. simpl. now rewrite lookup_insert_ne.
Qed.

(** [Store] never replaces a row. *)
Lemma Pg_Store_lookup_Some (db : Pg.table) fault hash now secret views ttl k r :
  db !! k = Some r -> (Pg.Store db fault hash now secret views ttl).2 !! k = Some r.
Proof.
  intros Hk. destruct (decide (hash = k)) as [->|Hne];
    [| now rewrite Pg_Store_lookup_ne].
  unfold Pg.Store, Pg.exec_insert.
  destruct (NewSecret_cases k now secret views ttl) as [[e ->]|(_ & _ & _ & ->)];
    [done |]. simpl. rewrite Hk. now destruct fault.
Qed.

Lemma Pg_Get_lookup_ne (db : Pg.table) f key now k :
  key <> k -> (Pg.Get db f key now).2 !! k = db !! k.
Proof.
  intros Hne.
  unfold Pg.Get, Pg.Get_body, Pg.query_select, Pg.exec_update, Pg.exec_delete,
    Pg.Get_deferred.
  repeat (case_match; simplify_eq/=; try done);
    solve [now rewrite lookup_insert_ne | now rewrite lookup_delete_ne].
Qed.

(** [Get] on a row that is not available: it fails, and the row is deleted
    when the driver reports nothing and kept when it reports a failure. *)
Lemma Pg_Get_unavailable (db : Pg.table) f key now r :
  db !! key = Some r -> IsAvailable now (row_secret key r) = false ->
  (Pg.Get db f key now).1 = (zeroSecret, Some ErrSecretNotAvailable)
  /\ (f = Pg.no_faults -> (Pg.Get db f key now).2 = delete key db)
  /\ ((Pg.Get db f key now).2 = db \/ (Pg.Get db f key now).2 = delete key db).
Proof.
  intros Hk Hu.
  unfold Pg.Get, Pg.Get_body, Pg.query_select, Pg.exec_update, Pg.exec_delete,
    Pg.Get_deferred.
  destruct f as [[b|] [q|] [x|] [c|]]; simpl; rewrite ?Hk; simpl;
    try (fold (row_secret key r); rewrite Hu; simpl);
    repeat split; try done; auto.
Qed.

(** A successful [Get]: the row had a positive count, the caller gets that
    count less one and the row keeps that count less one. *)
Lemma Pg_Get_success (db : Pg.table) f key now s' db' :
  Pg.Get db f key now = ((s', None), db') ->
  exists r, db !! key = Some r /\ 0 < Pg.remaining_views r
            /\ IsAvailable now (row_secret key r) = true
            /\ s' = set_RemainingViews (Int64.sub (Pg.remaining_views r) 1) (row_secret key r)
            /\ db' = <[key := Pg.mkRow (Pg.secret_text r) (Pg.created_at r) (Pg.expires_at r)
                                       (Pg.remaining_views r - 1)]> db.
Proof.
  unfold Pg.Get, Pg.Get_body, Pg.query_select, Pg.exec_update, Pg.exec_delete,
    Pg.Get_deferred.
  destruct f as [[b|] [q|] [x|] [c|]]; simpl; try done;
    destruct (db !! key) as [r|] eqn:Hk; simpl; try done;
    fold (row_secret key r);
    destruct (IsAvailable now (row_secret key r)) eqn:Ha; simpl; try done;
    try (destruct (Pg.int4_range (Pg.remaining_views r - 1)); simpl; done).
  destruct (Pg.int4_range (Pg.remaining_views r - 1)) eqn:Hr; simpl; [| done].
  intros [= <- <-]. exists r.
  pose proof Ha as Ha'. apply IsAvailable_true in Ha' as [_ Hv].
  rewrite row_secret_views in *. done.
Qed.

(** ** Store and Get on the PostgreSQL storage *)

(** The row that [Store] writes. The field [Time] of [pSecret.ExpiresAt] is
    never assigned, so the column [expires_at] receives NULL or the zero
    time. *)
Lemma Pg_Store_valid (db : Pg.table) hash now secret views ttl :
  secret <> "" -> 1 <= views -> 0 <= ttl ->
  db !! hash = None -> Pg.int4_range views = true ->
  Pg.Store db None hash now secret views ttl
  = ((created hash now secret views ttl, None),
     <[hash := Pg.mkRow secret now
                 (if IsZero (ExpiresAt (created hash now secret views ttl))
                  then None else Some zeroTime)
                 views]> db).
Proof.
  intros Hs Hv Ht Hk Hr. unfold Pg.Store, Pg.exec_insert.
  rewrite NewSecret_valid by done. cbn [Pg.pg_Secret Pg.pg_ExpiresAt].
  change (Hash (created hash now secret views ttl)) with hash.
  change (RemainingViews (created hash now secret views ttl)) with views.
  rewrite Hk, Hr. unfold Pg.NullTime_Value. cbn [Pg.NT_Valid Pg.NT_Time].
  now destruct (IsZero (ExpiresAt (created hash now secret views ttl))).
Qed.

(** Whatever its column [expires_at] holds after [Store], the row is read
    back with an unset expiry time. *)
Lemma Pg_Store_row_never_expires hash now secret views (e : bool) :
  ExpiresAt (row_secret hash (Pg.mkRow secret now (if e then None else Some zeroTime) views))
  = zeroTime.
Proof. now destruct e. Qed.

(** [Store] then [Get] on the PostgreSQL storage, the driver reporting no
    failure: the content comes back with a view count one lower. *)
Lemma Pg_Store_Get_roundtrip (db : Pg.table) hash now secret views ttl now1 :
  secret <> "" -> 2 <= views -> 0 <= ttl ->
  db !! hash = None -> views <= 2 ^ 31 - 1 ->
  exists s db' s' db'',
    Pg.Store db None hash now secret views ttl = ((s, None), db')
    /\ Pg.Get db' Pg.no_faults (Hash s) now1 = ((s', None), db'')
    /\ SecretText s' = secret
    /\ RemainingViews s' = views - 1
    /\ Hash s' = Hash s.
Proof.
  intros Hs Hv Ht Hk Hr.
  assert (Hr4 : Pg.int4_range views = true) by (apply bool_decide_eq_true; lia).
  rewrite Pg_Store_valid by (done || lia).
  set (e := IsZero (ExpiresAt (created hash now secret views ttl))).
  set (r := Pg.mkRow secret now (if e then None else Some zeroTime) views).
  assert (Ha : IsAvailable now1 (row_secret hash r) = true).
  { apply IsAvailable_true. rewrite row_secret_views. subst r.
    rewrite Pg_Store_row_never_expires. simpl. split; [auto | lia]. }
  assert (Hr4' : Pg.int4_range (views - 1) = true) by (apply bool_decide_eq_true; lia).
  eexists _, _, _, _. split; [reflexivity |].
  unfold Pg.Get, Pg.Get_body, Pg.query_select, Pg.exec_update, Pg.Get_deferred.
  cbn [Pg.begin_fault Pg.query_fault Pg.exec_fault Pg.commit_fault Pg.no_faults Hash created].
  rewrite lookup_insert_eq. fold (row_secret hash r). rewrite Ha.
  cbn [Pg.remaining_views r]. subst r. cbn [Pg.remaining_views]. rewrite Hr4'.
  split; [reflexivity |]. cbn [SecretText RemainingViews Hash set_RemainingViews].
  rewrite row_secret_views. cbn [Pg.remaining_views].
  rewrite Int64Facts.sub_one_pos;
    [| unfold Int64.in_range, Int64.min_signed, Int64.max_signed; lia | lia].
  unfold row_secret, Pg.ToSecret, Pg.scan_row. now destruct e.
Qed.

(** ** The view counter *)

Lemma Mem_step_counters_ok st o :
  MemTrace.wf o -> Mem_counters_ok st -> Mem_counters_ok (MemTrace.step st o).2.
Proof.
  intros Hwf Hok. destruct o as [hash now secret views ttl | key now1 now2]; simpl.
  - unfold Mem.Store.
    destruct (NewSecret_cases hash now secret views ttl) as [[e ->]|(_ & Hv & _ & ->)];
      [done |]. simpl. intros k s.
    destruct Hwf as [[_ Hmax] _]. rewrite lookup_insert. case_decide.
    + intros [= <-]. simpl. lia.
    + apply Hok.
  - unfold Mem.Get. destruct (st !! key) as [s|] eqn:Hk; [| done].
    assert (Hdel : Mem_counters_ok (delete key st)).
    { intros k s0. rewrite lookup_delete. case_decide; [done | apply Hok]. }
    destruct (IsAvailable now1 s) eqn:H1; [| done].
    destruct (IsAvailable now2 s); [| done]. simpl.
    apply IsAvailable_true in H1 as [_ Hpos]. pose proof (Hok _ _ Hk) as Hr.
    intros k s0. rewrite lookup_insert. case_decide; [| apply Hok].
    intros [= <-]. simpl. rewrite Int64Facts.sub_one_pos; [lia | | done].
    unfold Int64.in_range, Int64.min_signed, Int64.max_signed in *. lia.
Qed.

Lemma Mem_run_counters_ok ops : forall st,
  Forall MemTrace.wf ops -> Mem_counters_ok st -> Mem_counters_ok (MemTrace.run st ops).2.
Proof.
  induction ops as [|o ops IH]; intros st Hwf Hok; [done |].
  inversion Hwf as [|? ? Ho Hops]; subst. simpl.
  pose proof (Mem_step_counters_ok st o Ho Hok) as Hstep.
  destruct (MemTrace.step st o) as [r st1]. simpl in Hstep.
  specialize (IH st1 Hops Hstep).
  destruct (MemTrace.run st1 ops) as [rs st2]. exact IH.
Qed.

Lemma Mem_step_counter_le st o k s :
  Mem_counters_ok st -> Mem_fresh st o -> st !! k = Some s ->
  Mem_counter_le (MemTrace.step st o).2 k (RemainingViews s).
Proof.
  intros Hok Hfresh Hk. unfold Mem_counter_le.
  destruct o as [hash now secret views ttl | key now1 now2]; simpl.
  - simpl in Hfresh. rewrite Mem_Store_lookup_ne by congruence. now rewrite Hk.
  - destruct (decide (key = k)) as [->|Hne];
      [| rewrite Mem_Get_lookup_ne by done; now rewrite Hk].
    unfold Mem.Get. rewrite Hk.
    destruct (IsAvailable now1 s) eqn:H1; simpl; [| now rewrite lookup_delete_eq].
    destruct (IsAvailable now2 s); simpl; [| now rewrite lookup_delete_eq].
    rewrite lookup_insert_eq. simpl.
    apply IsAvailable_true in H1 as [_ Hpos]. pose proof (Hok _ _ Hk) as Hr.
    rewrite Int64Facts.sub_one_pos; [lia | | done].
    unfold Int64.in_range, Int64.min_signed, Int64.max_signed in *. lia.
Qed.

(** The table after a [Get]: unchanged, without the row, or with the row's
    counter one lower. *)
Lemma Pg_Get_table (db : Pg.table) f key now :
  (Pg.Get db f key now).2 = db
  \/ (Pg.Get db f key now).2 = delete key db
  \/ exists r, db !! key = Some r /\ 0 < Pg.remaining_views r
               /\ (Pg.Get db f key now).2
                  = <[key := Pg.mkRow (Pg.secret_text r) (Pg.created_at r) (Pg.expires_at r)
                                      (Pg.remaining_views r - 1)]> db.
Proof.
  destruct (Pg.Get db f key now) as [[s [e|]] db'] eqn:HG.
  - destruct (db !! key) as [r|] eqn:Hk.
    + destruct (IsAvailable now (row_secret key r)) eqn:Ha.
      * left. revert HG.
        unfold Pg.Get, Pg.Get_body, Pg.query_select, Pg.exec_update, Pg.exec_delete,
          Pg.Get_deferred.
        rewrite Hk. unfold row_secret in Ha.
        destruct f as [[b|] [q|] [x|] [c|]]; simpl; rewrite ?Ha; simpl;
          try destruct (Pg.int4_range (Pg.remaining_views r - 1)); simpl; congruence.
      * destruct (Pg_Get_unavailable db f key now r Hk Ha) as (_ & _ & Hdb).
        rewrite HG in Hdb. simpl in *. tauto.
    + rewrite Pg_Get_absent in HG by done. left. simpl. congruence.
  - apply Pg_Get_success in HG as (r & Hk & Hpos & _ & _ & ->). right. right. eauto.
Qed.

Lemma Pg_step_counters_ok db o :
  Pg_counters_ok db -> Pg_counters_ok (PgTrace.step db o).2.
Proof.
  intros Hok. destruct o as [fault hash now secret views ttl | f key now]; simpl.
  - unfold Pg.Store, Pg.exec_insert.
    destruct (NewSecret_cases hash now secret views ttl) as [[e ->]|(_ & Hv & _ & ->)];
      [done |]. simpl.
    destruct fault; [done |]. destruct (db !! hash); [done |].
    destruct (Pg.int4_range views) eqn:Hr; [| done]. simpl.
    apply bool_decide_eq_true in Hr.
    intros k r. rewrite lookup_insert. case_decide; [| apply Hok].
    intros [= <-]. simpl. lia.
  - destruct (Pg_Get_table db f key now) as [-> | [-> | (r & Hk & Hpos & ->)]]; [done | |].
    + intros k r. rewrite lookup_delete. case_decide; [done | apply Hok].
    + pose proof (Hok _ _ Hk) as Hr.
      intros k r0. rewrite lookup_insert. case_decide; [| apply Hok].
      intros [= <-]. simpl. lia.
Qed.

Lemma Pg_run_counters_ok ops : forall db,
  Pg_counters_ok db -> Pg_counters_ok (PgTrace.run db ops).2.
Proof.
  induction ops as [|o ops IH]; intros db Hok; [done |]. simpl.
  pose proof (Pg_step_counters_ok db o Hok) as Hstep.
  destruct (PgTrace.step db o) as [r db1]. simpl in Hstep.
  specialize (IH db1 Hstep).
  destruct (PgTrace.run db1 ops) as [rs db2]. exact IH.
Qed.

Lemma Pg_step_counter_le db o k r :
  db !! k = Some r -> Pg_counter_le (PgTrace.step db o).2 k (Pg.remaining_views r).
Proof.
  intros Hk. unfold Pg_counter_le.
  destruct o as [fault hash now secret views ttl | f key now]; simpl.
  - now rewrite (Pg_Store_lookup_Some _ _ _ _ _ _ _ _ r).
  - destruct (decide (key = k)) as [->|Hne];
      [| rewrite Pg_Get_lookup_ne by done; now rewrite Hk].
    destruct (Pg_Get_table db f k now) as [-> | [-> | (r0 & Hk0 & Hpos & ->)]].
    + now rewrite Hk.
    + now rewrite lookup_delete_eq.
    + rewrite lookup_insert_eq. simpl. assert (r0 = r) as -> by congruence. lia.
Qed.

Lemma Mem_counters_ok_empty : Mem_counters_ok ∅.
Proof. intros k s. now rewrite lookup_empty. Qed.

Lemma Pg_counters_ok_empty : Pg_counters_ok ∅.
Proof. intros k r. now rewrite lookup_empty. Qed.

(** C6, as the code has it. After any sequence of calls on an empty store,
    on either storage: every stored counter is non-negative; a [Get]
    succeeds only on a record whose counter is positive and returns that
    counter less one, which is non-negative and is 0 for the last view; and
    no call raises the counter of a record. *)
Theorem RemainingViews_never_negative
    (mops : list MemTrace.op) (pops : list PgTrace.op) :
  Forall MemTrace.wf mops ->
  (let st := (MemTrace.run ∅ mops).2 in
   Mem_counters_ok st
   /\ (forall key now1 now2 s' st',
         Mem.Get st key now1 now2 = ((s', None), st') ->
         0 <= RemainingViews s'
         /\ exists s, st !! key = Some s /\ 0 < RemainingViews s
                      /\ RemainingViews s' = RemainingViews s - 1
                      /\ st' !! key = Some s')
   /\ (forall o k s,
         MemTrace.wf o -> Mem_fresh st o -> st !! k = Some s ->
         Mem_counter_le (MemTrace.step st o).2 k (RemainingViews s)))
  /\ (let db := (PgTrace.run ∅ pops).2 in
      Pg_counters_ok db
      /\ (forall f key now s' db',
            Pg.Get db f key now = ((s', None), db') ->
            0 <= RemainingViews s'
            /\ exists r r', db !! key = Some r /\ 0 < Pg.remaining_views r
                            /\ RemainingViews s' = Pg.remaining_views r - 1
                            /\ db' !! key = Some r'
                            /\ Pg.remaining_views r' = Pg.remaining_views r - 1)
      /\ (forall o k r,
            db !! k = Some r ->
            Pg_counter_le (PgTrace.step db o).2 k (Pg.remaining_views r))).
Proof.
  intros Hwf. split.
  - pose proof (Mem_run_counters_ok mops ∅ Hwf Mem_counters_ok_empty) as Hok.
    cbv zeta. set (st := (MemTrace.run ∅ mops).2) in *.
    split; [exact Hok |]. split.
    + intros key now1 now2 s' st' HG.
      apply Mem_Get_success in HG as (s & Hk & Hpos & _ & _ & -> & ->).
      pose proof (Hok _ _ Hk) as Hr. simpl.
      rewrite Int64Facts.sub_one_pos;
        [| unfold Int64.in_range, Int64.min_signed, Int64.max_signed in *; lia | done].
      split; [lia |]. exists s. repeat split; try done. apply lookup_insert_eq.
    + intros o k s _ Hfresh Hk. now apply Mem_step_counter_le.
  - pose proof (Pg_run_counters_ok pops ∅ Pg_counters_ok_empty) as Hok.
    cbv zeta. set (db := (PgTrace.run ∅ pops).2) in *.
    split; [exact Hok |]. split.
    + intros f key now s' db' HG.
      apply Pg_Get_success in HG as (r & Hk & Hpos & _ & -> & ->).
      pose proof (Hok _ _ Hk) as Hr. simpl.
      rewrite Int64Facts.sub_one_pos;
        [| unfold Int64.in_range, Int64.min_signed, Int64.max_signed in *; lia | done].
      split; [lia |].
      exists r, (Pg.mkRow (Pg.secret_text r) (Pg.created_at r) (Pg.expires_at r)
                   (Pg.remaining_views r - 1)).
      rewrite lookup_insert_eq. done.
    + intros o k r Hk. now apply Pg_step_counter_le.
Qed.

Lemma RemainingViews_never_negative_witness :
  Mem_counters_ok
    (MemTrace.run ∅ [MemTrace.OpStore "9f2c" 100 "x" 1 0; MemTrace.OpGet "9f2c" 200 201]).2
  /\ Pg_counters_ok
       (PgTrace.run ∅ [PgTrace.OpStore None "9f2c" 100 "x" 1 0;
                       PgTrace.OpGet Pg.no_faults "9f2c" 200]).2.
Proof.
  assert (Hwf : Forall MemTrace.wf
                  [MemTrace.OpStore "9f2c" 100 "x" 1 0; MemTrace.OpGet "9f2c" 200 201]).
  { repeat constructor; vm_compute; discriminate. }
  destruct (RemainingViews_never_negative
              [MemTrace.OpStore "9f2c" 100 "x" 1 0; MemTrace.OpGet "9f2c" 200 201]
              [PgTrace.OpStore None "9f2c" 100 "x" 1 0; PgTrace.OpGet Pg.no_faults "9f2c" 200]
              Hwf) as [[Hm _] [Hp _]].
  split; [exact Hm | exact Hp].
Defined.

(** C6, as stated, fails: the [Get] that takes the last view of a secret
    succeeds and returns the secret with a counter of 0, on both storages. *)
Lemma Get_last_view_returns_zero :
  (exists s st',
     Mem.Get (Mem.Store ∅ "9f2c" 100 "x" 1 0).2 "9f2c" 200 201 = ((s, None), st')
     /\ RemainingViews s <= 0)
  /\ (exists s db',
        Pg.Get (Pg.Store ∅ None "9f2c" 100 "x" 1 0).2 Pg.no_faults "9f2c" 200
        = ((s, None), db')
        /\ RemainingViews s <= 0).
Proof.
  split; eexists _, _; (split; [reflexivity | vm_compute; discriminate]).
Qed.

(** ** After a secret has become unavailable *)

Section Unavailable.

(** The time [t] at which the secret under [key] is not available. *)
Variables (t : Time) (key : string).

Section MemStorage.

Variable s : Secret.
Hypothesis s_unavailable : IsAvailable t s = false.

Lemma Mem_step_dead st o :
  MemTrace.after t key o -> Mem_dead key s st ->
  Mem_dead key s (MemTrace.step st o).2
  /\ (st !! key = None -> (MemTrace.step st o).2 !! key = None)
  /\ (forall now1 now2, o = MemTrace.OpGet key now1 now2 ->
        (MemTrace.step st o).1 = (zeroSecret, Some ErrSecretNotAvailable)
        /\ (MemTrace.step st o).2 !! key = None).
Proof.
  intros Hafter Hdead. unfold Mem_dead in *.
  destruct o as [hash now secret views ttl | k now1 now2]; simpl in *.
  - rewrite Mem_Store_lookup_ne by done. split; [done |]. split; [done |]. intros; done.
  - destruct (decide (k = key)) as [->|Hne].
    + assert (Hres : Mem.Get st key now1 now2 =
                     ((zeroSecret, Some ErrSecretNotAvailable), delete key st)).
      { destruct Hdead as [Hk|Hk].
        - rewrite Mem_Get_absent, delete_id by done. done.
        - apply (Mem_Get_unavailable _ _ s); [done |].
          left. apply (IsAvailable_later t); [done | lia]. }
      rewrite Hres. simpl. rewrite lookup_delete_eq. auto.
    + rewrite Mem_Get_lookup_ne by done. split; [done |]. split; [done |].
      intros n1 n2 [= -> _ _]. done.
Qed.

Lemma Mem_run_dead ops : forall st,
  Forall (MemTrace.after t key) ops -> Mem_dead key s st ->
  (forall i now1 now2,
     ops !! i = Some (MemTrace.OpGet key now1 now2) ->
     (MemTrace.run st ops).1 !! i = Some (zeroSecret, Some ErrSecretNotAvailable))
  /\ Mem_dead key s (MemTrace.run st ops).2
  /\ (st !! key = None \/ (exists now1 now2, MemTrace.OpGet key now1 now2 ∈ ops) ->
      (MemTrace.run st ops).2 !! key = None).
Proof.
  induction ops as [|o ops IH]; intros st Hafter Hdead.
  { simpl. repeat split; [done | done |].
    intros [H | (n1 & n2 & H)]; [done | by apply elem_of_nil in H]. }
  inversion Hafter as [|? ? Ho Hops]; subst.
  destruct (Mem_step_dead st o Ho Hdead) as (Hdead1 & Hnone1 & Hget1).
  simpl. destruct (MemTrace.step st o) as [r st1]. simpl in *.
  destruct (IH st1 Hops Hdead1) as (IHget & IHdead & IHnone).
  destruct (MemTrace.run st1 ops) as [rs st2]. simpl in *.
  repeat split; [| done |].
  - intros [|i] now1 now2 Hi; simpl in *.
    + injection Hi as ->. f_equal. now apply (Hget1 now1 now2).
    + now apply (IHget i now1 now2).
  - intros [Hk | (n1 & n2 & Hin)]; apply IHnone.
    + left. auto.
    + apply elem_of_cons in Hin as [<- | Hin]; [| right; eauto].
      left. now apply (Hget1 n1 n2).
Qed.

End MemStorage.

Section PgStorage.

Variable r : Pg.row.
Hypothesis r_unavailable : IsAvailable t (row_secret key r) = false.

Lemma Pg_step_dead db o :
  PgTrace.after t key o -> Pg_dead key r db ->
  Pg_dead key r (PgTrace.step db o).2
  /\ (db !! key = None -> (PgTrace.step db o).2 !! key = None)
  /\ (forall f now, o = PgTrace.OpGet f key now ->
        (PgTrace.step db o).1 = (zeroSecret, Some ErrSecretNotAvailable)
        /\ (f = Pg.no_faults -> (PgTrace.step db o).2 !! key = None)).
Proof.
  intros Hafter Hdead. unfold Pg_dead in *.
  destruct o as [fault hash now secret views ttl | f k now]; simpl in *.
  - rewrite Pg_Store_lookup_ne by done. split; [done |]. split; [done |]. intros; done.
  - destruct (decide (k = key)) as [->|Hne].
    + destruct Hdead as [Hk|Hk].
      * rewrite Pg_Get_absent by done. simpl. auto.
      * assert (Hu : IsAvailable now (row_secret key r) = false)
          by (apply (IsAvailable_later t); [done | lia]).
        destruct (Pg_Get_unavailable db f key now r Hk Hu) as (Hres & Hnf & Hdb).
        split; [| split].
        -- destruct Hdb as [-> | ->]; [auto | left; apply lookup_delete_eq].
        -- congruence.
        -- intros f' now' [= <- <-]. split; [done |].
           intros Hf. rewrite Hnf by done. apply lookup_delete_eq.
    + rewrite Pg_Get_lookup_ne by done. split; [done |]. split; [done |].
      intros f' now' [= _ -> _]. done.
Qed.

Lemma Pg_run_dead ops : forall db,
  Forall (PgTrace.after t key) ops -> Pg_dead key r db ->
  (forall i f now,
     ops !! i = Some (PgTrace.OpGet f key now) ->
     (PgTrace.run db ops).1 !! i = Some (zeroSecret, Some ErrSecretNotAvailable))
  /\ Pg_dead key r (PgTrace.run db ops).2
  /\ (db !! key = None \/ (exists now, PgTrace.OpGet Pg.no_faults key now ∈ ops) ->
      (PgTrace.run db ops).2 !! key = None).
Proof.
  induction ops as [|o ops IH]; intros db Hafter Hdead.
  { simpl. repeat split; [done | done |].
    intros [H | (n & H)]; [done | by apply elem_of_nil in H]. }
  inversion Hafter as [|? ? Ho Hops]; subst.
  destruct (Pg_step_dead db o Ho Hdead) as (Hdead1 & Hnone1 & Hget1).
  simpl. destruct (PgTrace.step db o) as [res db1]. simpl in *.
  destruct (IH db1 Hops Hdead1) as (IHget & IHdead & IHnone).
  destruct (PgTrace.run db1 ops) as [rs db2]. simpl in *.
  repeat split; [| done |].
  - intros [|i] f now Hi; simpl in *.
    + injection Hi as ->. f_equal. now apply (Hget1 f now).
    + now apply (IHget i f now).
  - intros [Hk | (n & Hin)]; apply IHnone.
    + left. auto.
    + apply elem_of_cons in Hin as [<- | Hin]; [| right; eauto].
      left. now apply (Hget1 Pg.no_faults n).
Qed.

End PgStorage.

End Unavailable.

(** What holds once a record is not available. Let the secret under [key] be
    stored and not available at time [t]
    (no views left, or expired), and let any calls follow, at time [t] or
    later, none of them a [Store] that generates [key] again. Then every
    [Get] on [key] among them fails with [ErrSecretNotAvailable]; the record
    is never replaced by another one; and it is removed by the first such
    [Get]: from the map of the in-memory storage, and from the table of the
    PostgreSQL storage by the first of them that the database executes
    without reporting a failure (a failed transaction is rolled back, and
    the [Get] fails all the same). *)
Theorem unavailable_secret_is_removed
    (t : Time) (key : string)
    (st : Mem.memStorage) (s : Secret) (mops : list MemTrace.op)
    (db : Pg.table) (r : Pg.row) (pops : list PgTrace.op) :
  st !! key = Some s -> IsAvailable t s = false ->
  Forall (MemTrace.after t key) mops ->
  db !! key = Some r -> IsAvailable t (row_secret key r) = false ->
  Forall (PgTrace.after t key) pops ->
  ((forall i now1 now2,
      mops !! i = Some (MemTrace.OpGet key now1 now2) ->
      (MemTrace.run st mops).1 !! i = Some (zeroSecret, Some ErrSecretNotAvailable))
   /\ ((MemTrace.run st mops).2 !! key = None \/ (MemTrace.run st mops).2 !! key = Some s)
   /\ ((exists now1 now2, MemTrace.OpGet key now1 now2 ∈ mops) ->
       (MemTrace.run st mops).2 !! key = None))
  /\ ((forall i f now,
         pops !! i = Some (PgTrace.OpGet f key now) ->
         (PgTrace.run db pops).1 !! i = Some (zeroSecret, Some ErrSecretNotAvailable))
      /\ ((PgTrace.run db pops).2 !! key = None \/ (PgTrace.run db pops).2 !! key = Some r)
      /\ ((exists now, PgTrace.OpGet Pg.no_faults key now ∈ pops) ->
          (PgTrace.run db pops).2 !! key = None)).
Proof.
  intros Hst Hs Hmops Hdb Hr Hpops. split.
  - destruct (Mem_run_dead t key s Hs mops st Hmops (or_intror Hst)) as (Hget & Hdead & Hnone).
    split; [exact Hget |]. split; [exact Hdead |]. intros H. apply Hnone. now right.
  - destruct (Pg_run_dead t key r Hr pops db Hpops (or_intror Hdb)) as (Hget & Hdead & Hnone).
    split; [exact Hget |]. split; [exact Hdead |]. intros H. apply Hnone. now right.
Qed.

Lemma unavailable_secret_is_removed_witness :
  let st : Mem.memStorage := {[ "9f2c" := mkSecret "9f2c" "x" 100 0 0 ]} in
  let mops := [MemTrace.OpGet "9f2c" 200 201; MemTrace.OpStore "77aa" 300 "y" 1 0;
               MemTrace.OpGet "9f2c" 400 401] in
  let db : Pg.table := {[ "9f2c" := Pg.mkRow "x" 100 (Some 150) 3 ]} in
  let pops := [PgTrace.OpGet (Pg.mkFaults None None (Some "driver: bad connection") None)
                 "9f2c" 200;
               PgTrace.OpGet Pg.no_faults "9f2c" 300] in
  ((MemTrace.run st mops).1 !! 2%nat = Some (zeroSecret, Some ErrSecretNotAvailable)
   /\ (MemTrace.run st mops).2 !! "9f2c" = None)
  /\ ((PgTrace.run db pops).1 !! 0%nat = Some (zeroSecret, Some ErrSecretNotAvailable)
      /\ (PgTrace.run db pops).2 !! "9f2c" = None).
Proof.
  intros st mops db pops.
  assert (Hm : Forall (MemTrace.after 150 "9f2c") mops).
  { repeat constructor; simpl; (lia || discriminate). }
  assert (Hp : Forall (PgTrace.after 150 "9f2c") pops).
  { repeat constructor; simpl; lia. }
  destruct (unavailable_secret_is_removed 150 "9f2c" st (mkSecret "9f2c" "x" 100 0 0) mops
              db (Pg.mkRow "x" 100 (Some 150) 3) pops
              eq_refl eq_refl Hm eq_refl eq_refl Hp)
    as [(Hmget & _ & Hmnone) (Hpget & _ & Hpnone)].
  split; split.
  - apply (Hmget 2%nat 400 401). reflexivity.
  - apply Hmnone. exists 200, 201. apply list_elem_of_here.
  - apply (Hpget 0%nat (Pg.mkFaults None None (Some "driver: bad connection") None) 200).
    reflexivity.
  - apply Hpnone. exists 300. apply list_elem_of_further, list_elem_of_here.
Defined.

(** C5, at the failing input. A secret is stored on the PostgreSQL storage
    with a TTL of one minute and three views. [Store] sets the flag [Valid]
    of [pSecret.ExpiresAt] and never its [Time], so the row holds the zero
    time in [expires_at], [ToSecret] copies it and [IsAvailable] takes it
    for no expiry: an hour later, when the secret that [Store] returned has
    expired, [Get] succeeds, and succeeds again, and the row is not deleted.
    On the same input the in-memory storage fails the [Get] and removes the
    record. *)
Theorem Pg_Get_serves_expired_secret :
  let now : Time := 63900000000000000000 in
  let later : Time := now + 60 * Minute in
  exists s db' db'',
    Pg.Store ∅ None "9f2c" now "x" 3 1 = ((s, None), db')
    /\ ExpiresAt s = now + 1 * Minute
    /\ IsAvailable later s = false
    /\ db' !! "9f2c" = Some (Pg.mkRow "x" now (Some zeroTime) 3)
    /\ Pg.Get db' Pg.no_faults "9f2c" later
       = ((mkSecret "9f2c" "x" now zeroTime 2, None), db'')
    /\ db'' !! "9f2c" = Some (Pg.mkRow "x" now (Some zeroTime) 2)
    /\ (Pg.Get db'' Pg.no_faults "9f2c" (later + 1)).1
       = (mkSecret "9f2c" "x" now zeroTime 1, None)
    /\ (Mem.Get (Mem.Store ∅ "9f2c" now "x" 3 1).2 "9f2c" later later).1
       = (zeroSecret, Some ErrSecretNotAvailable)
    /\ (Mem.Get (Mem.Store ∅ "9f2c" now "x" 3 1).2 "9f2c" later later).2 !! "9f2c" = None.
Proof.
  intros now later. eexists _, _, _.
  split; [reflexivity |]. split; [reflexivity |]. split; [reflexivity |].
  split; [reflexivity |]. split; [reflexivity |]. split; [reflexivity |].
  split; [reflexivity |]. split; reflexivity.
Qed.

(** * Further properties *)

(** ** The number of views *)

Lemma set_RemainingViews_twice a b s :
  set_RemainingViews a (set_RemainingViews b s) = set_RemainingViews a s.
Proof. reflexivity. Qed.

Lemma view_result_next s v i :
  0 < v ->
  view_result s v (S i) = view_result (set_RemainingViews (v - 1) s) (v - 1) i.
Proof.
  intros Hv. unfold view_result.
  destruct (decide (Z.of_nat (S i) < v)), (decide (Z.of_nat i < v - 1)); try lia; [| done].
  rewrite set_RemainingViews_twice. do 2 f_equal. lia.
Qed.

Lemma view_result_used_up s i : view_result s 0 i = (zeroSecret, Some ErrSecretNotAvailable).
Proof. unfold view_result. destruct (decide (Z.of_nat i < 0)); [lia | done]. Qed.

Lemma Mem_run_gets_absent key nows : forall st : Mem.memStorage,
  st !! key = None ->
  MemTrace.run st (Mem_gets key nows)
  = ((fun _ => (zeroSecret, Some ErrSecretNotAvailable)) <$> nows, st).
Proof.
  induction nows as [|n nows IH]; intros st Hk; [done |].
  simpl. rewrite Mem_Get_absent by done. fold (Mem_gets key nows).
  now rewrite IH.
Qed.

Lemma Mem_run_gets key nows : forall (st : Mem.memStorage) s,
  st !! key = Some s ->
  0 <= RemainingViews s <= Int64.max_signed ->
  Forall (fun n => not_expired_at s n.1 /\ not_expired_at s n.2) nows ->
  (MemTrace.run st (Mem_gets key nows)).1
  = imap (fun i _ => view_result s (RemainingViews s) i) nows
  /\ (MemTrace.run st (Mem_gets key nows)).2 !! key
     = if decide (Z.of_nat (length nows) <= RemainingViews s)
       then Some (set_RemainingViews (RemainingViews s - Z.of_nat (length nows)) s)
       else None.
Proof.
  induction nows as [|[n1 n2] nows IH]; intros st s Hk Hv Hexp.
  { simpl. split; [done |]. rewrite decide_True by lia. rewrite Hk. f_equal.
    destruct s; unfold set_RemainingViews; simpl. f_equal. lia. }
  inversion Hexp as [|? ? [He1 He2] Hexp']; subst. simpl in He1, He2.
  cbn [Mem_gets map MemTrace.run MemTrace.step fst snd]. fold (Mem_gets key nows).
  destruct (decide (RemainingViews s = 0)) as [Hz|Hz].
  - rewrite (Mem_Get_unavailable _ _ s) by
      first [done | left; apply IsAvailable_false; right; lia].
    rewrite Mem_run_gets_absent by apply lookup_delete_eq. cbn [fst snd].
    rewrite lookup_delete_eq, Hz. split.
    + cbn [imap]. rewrite view_result_used_up. f_equal.
      rewrite <- (imap_const (fun _ => (zeroSecret, Some ErrSecretNotAvailable)) nows).
      apply imap_ext. intros i x _. simpl. now rewrite view_result_used_up.
    + rewrite decide_False; [done |]. simpl. lia.
  - assert (Hpos : 0 < RemainingViews s) by lia.
    rewrite (Mem_Get_available _ _ s) by
      first [done | apply IsAvailable_true; done].
    rewrite Int64Facts.sub_one_pos;
      [| unfold Int64.in_range, Int64.min_signed, Int64.max_signed in *; lia | done].
    set (s' := set_RemainingViews (RemainingViews s - 1) s).
    destruct (IH (<[key := s']> st) s') as [IHr IHs].
    { apply lookup_insert_eq. }
    { simpl. lia. }
    { exact Hexp'. }
    destruct (MemTrace.run (<[key := s']> st) (Mem_gets key nows)) as [rs st2].
    cbn [fst snd] in *. split.
    + cbn [imap]. f_equal.
      * unfold view_result. rewrite decide_True by (simpl; lia).
        do 2 f_equal. simpl. lia.
      * rewrite IHr. apply imap_ext. intros i x _. simpl.
        now rewrite view_result_next.
    + rewrite IHs. simpl.
      destruct (decide (Z.of_nat (length nows) <= RemainingViews s - 1)),
        (decide (Z.of_nat (S (length nows)) <= RemainingViews s)); try lia; [| done].
      f_equal. unfold set_RemainingViews. simpl. f_equal. lia.
Qed.

Lemma successes_cons r rs :
  successes (r :: rs) = ((if succeeded r then 1 else 0) + successes rs)%nat.
Proof. unfold successes. simpl. now destruct (succeeded r). Qed.

Lemma successes_view_results {A} (l : list A) : forall s v,
  0 <= v ->
  successes (imap (fun i _ => view_result s v i) l) = Nat.min (length l) (Z.to_nat v).
Proof.
  induction l as [|x l IH]; intros s v Hv; [done |].
  cbn [imap length]. rewrite successes_cons. destruct (decide (v = 0)) as [->|Hz].
  - rewrite view_result_used_up.
    rewrite (imap_ext _ (fun i _ => view_result s 0 i) l)
      by (intros; simpl; now rewrite !view_result_used_up).
    rewrite IH by lia. simpl. lia.
  - rewrite (imap_ext _ (fun i _ => view_result (set_RemainingViews (v - 1) s) (v - 1) i) l)
      by (intros; simpl; apply view_result_next; lia).
    rewrite IH by lia.
    unfold view_result. rewrite decide_True by lia. cbn [succeeded snd]. lia.
Qed.

(** X1. On the in-memory storage, [Get]s that follow one another on a secret
    with [v] views left, all before its expiry: the first [v] succeed, the
    [i]-th returning the secret with [v - 1 - i] views left, and all later
    ones fail with [ErrSecretNotAvailable]; so the number of successes is
    the smaller of [v] and the number of calls. The record stays in the map
    with the views left, and is removed by the first call that fails. *)
Theorem Mem_views_are_exact
    (st : Mem.memStorage) (key : string) (s : Secret) (nows : list (Time * Time)) :
  st !! key = Some s ->
  0 <= RemainingViews s <= Int64.max_signed ->
  Forall (fun n => not_expired_at s n.1 /\ not_expired_at s n.2) nows ->
  (MemTrace.run st (Mem_gets key nows)).1
  = imap (fun i _ => view_result s (RemainingViews s) i) nows
  /\ successes (MemTrace.run st (Mem_gets key nows)).1
     = Nat.min (length nows) (Z.to_nat (RemainingViews s))
  /\ (MemTrace.run st (Mem_gets key nows)).2 !! key
     = if decide (Z.of_nat (length nows) <= RemainingViews s)
       then Some (set_RemainingViews (RemainingViews s - Z.of_nat (length nows)) s)
       else None.
Proof.
  intros Hk Hv Hexp. destruct (Mem_run_gets key nows st s Hk Hv Hexp) as [Hr Hs].
  split; [exact Hr |]. split; [| exact Hs].
  rewrite Hr. apply successes_view_results. lia.
Qed.

Lemma Mem_views_are_exact_witness :
  let s := mkSecret "9f2c" "x" 100 0 2 in
  (MemTrace.run {[ "9f2c" := s ]} (Mem_gets "9f2c" [(200, 201); (300, 301); (400, 401)])).1
  = [(set_RemainingViews 1 s, None); (set_RemainingViews 0 s, None);
     (zeroSecret, Some ErrSecretNotAvailable)]
  /\ successes
       (MemTrace.run {[ "9f2c" := s ]} (Mem_gets "9f2c" [(200, 201); (300, 301); (400, 401)])).1
     = 2%nat.
Proof.
  intros s.
  assert (Hexp : Forall (fun n : Time * Time => not_expired_at s n.1 /\ not_expired_at s n.2)
                   [(200, 201); (300, 301); (400, 401)]).
  { repeat constructor. }
  assert (Hv : 0 <= RemainingViews s <= Int64.max_signed).
  { split; vm_compute; discriminate. }
  assert (Hk : ({[ "9f2c" := s ]} : Mem.memStorage) !! "9f2c" = Some s) by reflexivity.
  destruct (Mem_views_are_exact {[ "9f2c" := s ]} "9f2c" s
              [(200, 201); (300, 301); (400, 401)] Hk Hv Hexp) as (Hr & Hn & _).
  split; [exact Hr | exact Hn].
Defined.

Lemma row_secret_set_remaining_views key v r :
  row_secret key (set_remaining_views v r) = set_RemainingViews v (row_secret key r).
Proof. unfold row_secret, Pg.ToSecret, Pg.scan_row. simpl. now destruct (Pg.expires_at r). Qed.

Lemma Pg_Get_available (db : Pg.table) key now r :
  db !! key = Some r ->
  IsAvailable now (row_secret key r) = true ->
  Pg.remaining_views r <= 2 ^ 31 - 1 ->
  Pg.Get db Pg.no_faults key now
  = ((set_RemainingViews (Pg.remaining_views r - 1) (row_secret key r), None),
     <[key := set_remaining_views (Pg.remaining_views r - 1) r]> db).
Proof.
  intros Hk Ha Hr. pose proof Ha as Ha'. apply IsAvailable_true in Ha' as [_ Hpos].
  rewrite row_secret_views in Hpos.
  unfold Pg.Get, Pg.Get_body, Pg.query_select, Pg.exec_update, Pg.Get_deferred. simpl.
  rewrite Hk. fold (row_secret key r). rewrite Ha.
  assert (Hr4 : Pg.int4_range (Pg.remaining_views r - 1) = true)
    by (apply bool_decide_eq_true; lia).
  rewrite Hr4. rewrite row_secret_views.
  rewrite Int64Facts.sub_one_pos;
    [done | unfold Int64.in_range, Int64.min_signed, Int64.max_signed; lia | done].
Qed.

Lemma Pg_run_gets_absent key nows : forall db : Pg.table,
  db !! key = None ->
  PgTrace.run db (Pg_gets key nows)
  = ((fun _ => (zeroSecret, Some ErrSecretNotAvailable)) <$> nows, db).
Proof.
  induction nows as [|n nows IH]; intros db Hk; [done |].
  simpl. rewrite Pg_Get_absent by done. fold (Pg_gets key nows).
  now rewrite IH.
Qed.

Lemma Pg_run_gets key nows : forall (db : Pg.table) r,
  db !! key = Some r ->
  0 <= Pg.remaining_views r <= 2 ^ 31 - 1 ->
  Forall (not_expired_at (row_secret key r)) nows ->
  (PgTrace.run db (Pg_gets key nows)).1
  = imap (fun i _ => view_result (row_secret key r) (Pg.remaining_views r) i) nows
  /\ (PgTrace.run db (Pg_gets key nows)).2 !! key
     = if decide (Z.of_nat (length nows) <= Pg.remaining_views r)
       then Some (set_remaining_views (Pg.remaining_views r - Z.of_nat (length nows)) r)
       else None.
Proof.
  induction nows as [|n nows IH]; intros db r Hk Hv Hexp.
  { simpl. split; [done |]. rewrite decide_True by lia. rewrite Hk. f_equal.
    destruct r; unfold set_remaining_views; simpl. f_equal. lia. }
  inversion Hexp as [|? ? He Hexp']; subst.
  cbn [Pg_gets map PgTrace.run PgTrace.step fst snd]. fold (Pg_gets key nows).
  destruct (decide (Pg.remaining_views r = 0)) as [Hz|Hz].
  - assert (Hu : IsAvailable n (row_secret key r) = false).
    { apply IsAvailable_false. right. rewrite row_secret_views. lia. }
    destruct (Pg_Get_unavailable db Pg.no_faults key n r Hk Hu) as (Hres & Hnf & _).
    specialize (Hnf eq_refl).
    destruct (Pg.Get db Pg.no_faults key n) as [res db1]. simpl in Hres, Hnf. subst.
    rewrite Pg_run_gets_absent by apply lookup_delete_eq. cbn [fst snd].
    rewrite lookup_delete_eq, Hz. split.
    + cbn [imap]. rewrite view_result_used_up. f_equal.
      rewrite <- (imap_const (fun _ => (zeroSecret, Some ErrSecretNotAvailable)) nows).
      apply imap_ext. intros i x _. simpl. now rewrite view_result_used_up.
    + rewrite decide_False; [done |]. simpl. lia.
  - assert (Hpos : 0 < Pg.remaining_views r) by lia.
    rewrite (Pg_Get_available _ _ _ r);
      [| done | apply IsAvailable_true; rewrite row_secret_views; done | lia].
    set (r' := set_remaining_views (Pg.remaining_views r - 1) r).
    destruct (IH (<[key := r']> db) r') as [IHr IHs].
    { apply lookup_insert_eq. }
    { simpl. lia. }
    { subst r'. rewrite row_secret_set_remaining_views. exact Hexp'. }
    destruct (PgTrace.run (<[key := r']> db) (Pg_gets key nows)) as [rs db2].
    cbn [fst snd] in *. split.
    + cbn [imap]. f_equal.
      * unfold view_result. rewrite decide_True by (simpl; lia).
        do 2 f_equal. simpl. lia.
      * rewrite IHr. apply imap_ext. intros i x _. simpl.
        rewrite view_result_next by done. subst r'.
        now rewrite row_secret_set_remaining_views.
    + rewrite IHs. simpl.
      destruct (decide (Z.of_nat (length nows) <= Pg.remaining_views r - 1)),
        (decide (Z.of_nat (S (length nows)) <= Pg.remaining_views r)); try lia; [| done].
      f_equal. unfold set_remaining_views. simpl. f_equal. lia.
Qed.

(** X2. On the PostgreSQL storage, with a driver that reports no failure,
    [Get]s that follow one another on a row with [v] views left, all before
    its expiry: the first [v] succeed, the [i]-th returning the secret with
    [v - 1 - i] views left, and all later ones fail with
    [ErrSecretNotAvailable]. The row keeps the views left and is deleted by
    the first call that fails. *)
Theorem Pg_views_are_exact
    (db : Pg.table) (key : string) (r : Pg.row) (nows : list Time) :
  db !! key = Some r ->
  0 <= Pg.remaining_views r <= 2 ^ 31 - 1 ->
  Forall (not_expired_at (row_secret key r)) nows ->
  (PgTrace.run db (Pg_gets key nows)).1
  = imap (fun i _ => view_result (row_secret key r) (Pg.remaining_views r) i) nows
  /\ successes (PgTrace.run db (Pg_gets key nows)).1
     = Nat.min (length nows) (Z.to_nat (Pg.remaining_views r))
  /\ (PgTrace.run db (Pg_gets key nows)).2 !! key
     = if decide (Z.of_nat (length nows) <= Pg.remaining_views r)
       then Some (set_remaining_views (Pg.remaining_views r - Z.of_nat (length nows)) r)
       else None.
Proof.
  intros Hk Hv Hexp. destruct (Pg_run_gets key nows db r Hk Hv Hexp) as [Hr Hs].
  split; [exact Hr |]. split; [| exact Hs].
  rewrite Hr. apply successes_view_results. lia.
Qed.

Lemma Pg_views_are_exact_witness :
  let r := Pg.mkRow "x" 100 (Some 1000) 1 in
  (PgTrace.run {[ "9f2c" := r ]} (Pg_gets "9f2c" [200; 300])).1
  = [(mkSecret "9f2c" "x" 100 1000 0, None); (zeroSecret, Some ErrSecretNotAvailable)]
  /\ (PgTrace.run {[ "9f2c" := r ]} (Pg_gets "9f2c" [200; 300])).2 !! "9f2c" = None.
Proof.
  intros r.
  assert (Hexp : Forall (not_expired_at (row_secret "9f2c" r)) [200; 300]).
  { repeat constructor; right; reflexivity. }
  assert (Hv : 0 <= Pg.remaining_views r <= 2 ^ 31 - 1).
  { split; vm_compute; discriminate. }
  assert (Hk : ({[ "9f2c" := r ]} : Pg.table) !! "9f2c" = Some r) by reflexivity.
  destruct (Pg_views_are_exact {[ "9f2c" := r ]} "9f2c" r [200; 300] Hk Hv Hexp)
    as (Hr & _ & Hs).
  split; [exact Hr | exact Hs].
Defined.

(** ** The expiry time *)

(** X3. A secret stored in memory with a TTL between 1 and [max_ttl_minutes]
    minutes is read up to its expiry time and not from it on: a [Get] whose
    clock readings lie before the creation time plus the TTL succeeds, and
    a [Get] whose second reading is at that time or later fails and removes
    the record, also when its first reading was still before it. *)
Theorem Mem_Get_expiry_boundary
    (st : Mem.memStorage) (hash : string) (now : Time) (secret : string) (views ttl : Z)
    (now1 now2 : Time) :
  secret <> "" -> 1 <= views -> 0 < ttl <= max_ttl_minutes -> 0 <= now ->
  now1 <= now2 ->
  let st' := (Mem.Store st hash now secret views ttl).2 in
  (now2 < now + ttl * Minute -> (Mem.Get st' hash now1 now2).1.2 = None)
  /\ (now + ttl * Minute <= now2 ->
      Mem.Get st' hash now1 now2
      = ((zeroSecret, Some ErrSecretNotAvailable), delete hash st')).
Proof.
  intros Hs Hv Ht Hnow Hn st'. subst st'.
  rewrite Mem_Store_valid by (done || lia). cbn [snd].
  set (s := created hash now secret views ttl).
  assert (He : ExpiresAt s = now + ttl * Minute).
  { subst s. simpl. rewrite bool_decide_eq_true_2 by lia.
    now rewrite mul_Minute_exact by lia. }
  assert (Hm : 0 < ttl * Minute) by (unfold Minute; lia).
  split.
  - intros Hlt. rewrite (Mem_Get_available _ _ s); [done | apply lookup_insert_eq | |];
      apply IsAvailable_true; rewrite He; (split; [right; lia | simpl; lia]).
  - intros Hge. apply (Mem_Get_unavailable _ _ s); [apply lookup_insert_eq |].
    right. apply IsAvailable_false. left. rewrite He. unfold zeroTime. lia.
Qed.

Lemma Mem_Get_expiry_boundary_witness :
  let st' := (Mem.Store ∅ "9f2c" 1000 "x" 5 1).2 in
  (Mem.Get st' "9f2c" 2000 2001).1.2 = None
  /\ Mem.Get st' "9f2c" 60000000999 60000001000
     = ((zeroSecret, Some ErrSecretNotAvailable), delete "9f2c" st').
Proof.
  intros st'. split.
  - apply (Mem_Get_expiry_boundary ∅ "9f2c" 1000 "x" 5 1 2000 2001);
      [discriminate | lia | unfold max_ttl_minutes; lia | lia | lia | unfold Minute; lia].
  - apply (Mem_Get_expiry_boundary ∅ "9f2c" 1000 "x" 5 1 60000000999 60000001000);
      [discriminate | lia | unfold max_ttl_minutes; lia | lia | lia | unfold Minute; lia].
Defined.

(** X4. How the PostgreSQL storage reads the expiry of a row: the row is
    available exactly when it has views left and its column [expires_at] is
    NULL, holds the zero time, or holds a time later than the clock. *)
Theorem Pg_row_available (key : string) (r : Pg.row) (now : Time) :
  IsAvailable now (row_secret key r) = true <->
  match Pg.expires_at r with
  | None => True
  | Some t => t = zeroTime \/ now < t
  end /\ 0 < Pg.remaining_views r.
Proof.
  rewrite IsAvailable_true, row_secret_views.
  unfold row_secret, Pg.ToSecret, Pg.scan_row. simpl.
  destruct (Pg.expires_at r) as [t|]; simpl; [done |].
  split; [intros [_ ?]; done | intros [_ ?]; auto].
Qed.

(** ** What the storages keep of a record *)

Lemma Mem_step_records_ok st o :
  Mem_records_ok st -> Mem_records_ok (MemTrace.step st o).2.
Proof.
  intros Hok. destruct o as [hash now secret views ttl | key now1 now2]; simpl.
  - unfold Mem.Store.
    destruct (NewSecret_cases hash now secret views ttl) as [[e ->]|(Hs & _ & _ & ->)];
      [done |]. simpl. intros k s. rewrite lookup_insert. case_decide; [| apply Hok].
    intros [= <-]. done.
  - unfold Mem.Get. destruct (st !! key) as [s|] eqn:Hk; [| done].
    assert (Hdel : Mem_records_ok (delete key st)).
    { intros k s0. rewrite lookup_delete. case_decide; [done | apply Hok]. }
    destruct (IsAvailable now1 s); [| done]. destruct (IsAvailable now2 s); [| done].
    simpl. intros k s0. rewrite lookup_insert. case_decide; [| apply Hok].
    intros [= <-]. subst. apply (Hok _ _ Hk).
Qed.

Lemma Mem_run_records_ok ops : forall st,
  Mem_records_ok st -> Mem_records_ok (MemTrace.run st ops).2.
Proof.
  induction ops as [|o ops IH]; intros st Hok; [done |]. simpl.
  pose proof (Mem_step_records_ok st o Hok) as Hstep.
  destruct (MemTrace.step st o) as [r st1]. simpl in Hstep.
  specialize (IH st1 Hstep). destruct (MemTrace.run st1 ops) as [rs st2]. exact IH.
Qed.

Lemma Pg_step_rows_ok db o : Pg_rows_ok db -> Pg_rows_ok (PgTrace.step db o).2.
Proof.
  intros Hok. destruct o as [fault hash now secret views ttl | f key now]; simpl.
  - unfold Pg.Store, Pg.exec_insert.
    destruct (NewSecret_cases hash now secret views ttl) as [[e ->]|(Hs & _ & _ & ->)];
      [done |]. simpl.
    destruct fault; [done |]. destruct (db !! hash); [done |].
    destruct (Pg.int4_range views); [| done]. simpl.
    intros k r. rewrite lookup_insert. case_decide; [| apply Hok].
    intros [= <-]. done.
  - destruct (Pg_Get_table db f key now) as [-> | [-> | (r & Hk & Hpos & ->)]]; [done | |].
    + intros k r. rewrite lookup_delete. case_decide; [done | apply Hok].
    + intros k r0. rewrite lookup_insert. case_decide; [| apply Hok].
      intros [= <-]. simpl. apply (Hok _ _ Hk).
Qed.

Lemma Pg_run_rows_ok ops : forall db,
  Pg_rows_ok db -> Pg_rows_ok (PgTrace.run db ops).2.
Proof.
  induction ops as [|o ops IH]; intros db Hok; [done |]. simpl.
  pose proof (Pg_step_rows_ok db o Hok) as Hstep.
  destruct (PgTrace.step db o) as [r db1]. simpl in Hstep.
  specialize (IH db1 Hstep). destruct (PgTrace.run db1 ops) as [rs db2]. exact IH.
Qed.

(** X5. After any calls on an empty store, every stored secret has content and,
    in memory, sits under its own hash; so a [Get] that succeeds returns a
    secret with non-empty content whose hash is the requested key, on both
    storages. *)
Theorem Get_returns_the_requested_secret
    (mops : list MemTrace.op) (pops : list PgTrace.op)
    (key : string) (now1 now2 : Time) (f : Pg.faults) (s' : Secret) :
  (let st := (MemTrace.run ∅ mops).2 in
   Mem_records_ok st
   /\ (forall st', Mem.Get st key now1 now2 = ((s', None), st') ->
       Hash s' = key /\ SecretText s' <> ""))
  /\ (let db := (PgTrace.run ∅ pops).2 in
      Pg_rows_ok db
      /\ (forall db', Pg.Get db f key now1 = ((s', None), db') ->
          Hash s' = key /\ SecretText s' <> "")).
Proof.
  split; cbv zeta.
  - assert (Hok : Mem_records_ok (MemTrace.run ∅ mops).2).
    { apply Mem_run_records_ok. intros k s. now rewrite lookup_empty. }
    split; [exact Hok |]. intros st' HG.
    apply Mem_Get_success in HG as (s & Hk & _ & _ & _ & -> & _).
    simpl. apply (Hok _ _ Hk).
  - assert (Hok : Pg_rows_ok (PgTrace.run ∅ pops).2).
    { apply Pg_run_rows_ok. intros k r. now rewrite lookup_empty. }
    split; [exact Hok |]. intros db' HG.
    apply Pg_Get_success in HG as (r & Hk & _ & _ & -> & _).
    unfold row_secret, Pg.ToSecret, Pg.scan_row. simpl.
    destruct (Pg.expires_at r); simpl; (split; [done | apply (Hok _ _ Hk)]).
Qed.

Lemma Mem_step_same_but_views st o k s :
  Mem_fresh st o -> st !! k = Some s ->
  match (MemTrace.step st o).2 !! k with
  | Some s' => same_but_views s s'
  | None => True
  end.
Proof.
  intros Hfresh Hk. destruct o as [hash now secret views ttl | key now1 now2]; simpl.
  - simpl in Hfresh. rewrite Mem_Store_lookup_ne by congruence. now rewrite Hk.
  - destruct (decide (key = k)) as [->|Hne];
      [| rewrite Mem_Get_lookup_ne by done; now rewrite Hk].
    unfold Mem.Get. rewrite Hk.
    destruct (IsAvailable now1 s); simpl; [| now rewrite lookup_delete_eq].
    destruct (IsAvailable now2 s); simpl; [| now rewrite lookup_delete_eq].
    now rewrite lookup_insert_eq.
Qed.

(** X6. No call changes the hash, the content, the creation time or the expiry
    time of a stored secret: after a call the record is gone or differs in
    its view count only, and the secret that a [Get] returns is the stored
    one but for the view count. On the in-memory storage the hash generated
    for a [Store] is taken not to be in use; the PostgreSQL storage refuses
    a hash that is in use. *)
Theorem stored_secret_only_loses_views
    (st : Mem.memStorage) (mo : MemTrace.op) (db : Pg.table) (po : PgTrace.op)
    (k : string) (s : Secret) (r : Pg.row) :
  Mem_fresh st mo -> st !! k = Some s -> db !! k = Some r ->
  (match (MemTrace.step st mo).2 !! k with
   | Some s' => same_but_views s s'
   | None => True
   end
   /\ (forall now1 now2 s' st',
         Mem.Get st k now1 now2 = ((s', None), st') -> same_but_views s s'))
  /\ (match (PgTrace.step db po).2 !! k with
      | Some r' => Pg.secret_text r' = Pg.secret_text r
                   /\ Pg.created_at r' = Pg.created_at r
                   /\ Pg.expires_at r' = Pg.expires_at r
      | None => True
      end
      /\ (forall f now s' db',
            Pg.Get db f k now = ((s', None), db') ->
            same_but_views (row_secret k r) s')).
Proof.
  intros Hfresh Hst Hdb. split; split.
  - now apply Mem_step_same_but_views.
  - intros now1 now2 s' st' HG.
    apply Mem_Get_success in HG as (s0 & Hk & _ & _ & _ & -> & _).
    assert (s0 = s) as -> by congruence. done.
  - destruct po as [fault hash now secret views ttl | f key now]; simpl.
    + now rewrite (Pg_Store_lookup_Some _ _ _ _ _ _ _ _ r).
    + destruct (decide (key = k)) as [->|Hne];
        [| rewrite Pg_Get_lookup_ne by done; now rewrite Hdb].
      destruct (Pg_Get_table db f k now) as [-> | [-> | (r0 & Hk0 & Hpos & ->)]].
      * now rewrite Hdb.
      * now rewrite lookup_delete_eq.
      * rewrite lookup_insert_eq. simpl. assert (r0 = r) as -> by congruence. done.
  - intros f now s' db' HG.
    apply Pg_Get_success in HG as (r0 & Hk & _ & _ & -> & _).
    assert (r0 = r) as -> by congruence. done.
Qed.

Lemma stored_secret_only_loses_views_witness :
  let s := mkSecret "9f2c" "x" 100 0 2 in
  let r := Pg.mkRow "x" 100 None 2 in
  match (MemTrace.step {[ "9f2c" := s ]} (MemTrace.OpGet "9f2c" 200 201)).2 !! "9f2c" with
  | Some s' => same_but_views s s'
  | None => True
  end
  /\ match (PgTrace.step {[ "9f2c" := r ]} (PgTrace.OpGet Pg.no_faults "9f2c" 200)).2
           !! "9f2c" with
     | Some r' => Pg.secret_text r' = Pg.secret_text r
                  /\ Pg.created_at r' = Pg.created_at r
                  /\ Pg.expires_at r' = Pg.expires_at r
     | None => True
     end.
Proof.
  intros s r.
  assert (Hst : ({[ "9f2c" := s ]} : Mem.memStorage) !! "9f2c" = Some s) by reflexivity.
  assert (Hdb : ({[ "9f2c" := r ]} : Pg.table) !! "9f2c" = Some r) by reflexivity.
  destruct (stored_secret_only_loses_views {[ "9f2c" := s ]} (MemTrace.OpGet "9f2c" 200 201)
              {[ "9f2c" := r ]} (PgTrace.OpGet Pg.no_faults "9f2c" 200) "9f2c" s r
              I Hst Hdb) as [[Hm _] [Hp _]].
  split; [exact Hm | exact Hp].
Defined.

Lemma Get_returns_the_requested_secret_witness :
  let mops := [MemTrace.OpStore "9f2c" 100 "x" 2 0] in
  let s' := mkSecret "9f2c" "x" 100 0 1 in
  (Mem.Get (MemTrace.run ∅ mops).2 "9f2c" 200 201).1 = (s', None)
  /\ Hash s' = "9f2c" /\ SecretText s' <> "".
Proof.
  intros mops s'. split; [reflexivity |].
  destruct (Get_returns_the_requested_secret mops [] "9f2c" 200 201 Pg.no_faults s')
    as [[_ Hm] _].
  apply (Hm (<[ "9f2c" := s' ]> (MemTrace.run ∅ mops).2)). reflexivity.
Defined.

(** ** Calls on different hashes *)

Lemma only_entry_lookup {V} k (m : gmap string V) : only_entry k m !! k = m !! k.
Proof.
  unfold only_entry. destruct (m !! k) as [v|]; simpl;
    [apply lookup_singleton_eq | apply lookup_empty].
Qed.

Lemma partial_alter_const_lookup {V} k (m : gmap string V) :
  partial_alter (fun _ => m !! k) k m = m.
Proof. apply partial_alter_self. Qed.

(** A call reads and writes the entry of its hash only: it returns what it
    returns on the store cut down to that entry, and it leaves the store
    with that entry as the cut-down store has it. *)
Lemma Mem_step_local (st : Mem.memStorage) o :
  MemTrace.step st o
  = ((MemTrace.step (only_entry (Mem_op_key o) st) o).1,
     partial_alter
       (fun _ => (MemTrace.step (only_entry (Mem_op_key o) st) o).2 !! Mem_op_key o)
       (Mem_op_key o) st).
Proof.
  destruct o as [hash now secret views ttl | key now1 now2]; simpl.
  - unfold Mem.Store.
    destruct (NewSecret_cases hash now secret views ttl) as [[e ->]|(_ & _ & _ & ->)]; simpl.
    + now rewrite only_entry_lookup, partial_alter_self.
    + now rewrite lookup_insert_eq.
  - unfold Mem.Get. rewrite only_entry_lookup.
    destruct (st !! key) as [s|] eqn:Hk; simpl.
    + destruct (IsAvailable now1 s); [destruct (IsAvailable now2 s) |]; simpl;
        rewrite ?lookup_insert_eq, ?lookup_delete_eq; reflexivity.
    + rewrite only_entry_lookup, Hk. f_equal. symmetry. now apply partial_alter_id.
Qed.

Lemma Pg_step_local (db : Pg.table) o :
  PgTrace.step db o
  = ((PgTrace.step (only_entry (Pg_op_key o) db) o).1,
     partial_alter
       (fun _ => (PgTrace.step (only_entry (Pg_op_key o) db) o).2 !! Pg_op_key o)
       (Pg_op_key o) db).
Proof.
  destruct o as [fault hash now secret views ttl | f key now]; simpl.
  - unfold Pg.Store, Pg.exec_insert.
    destruct (NewSecret_cases hash now secret views ttl) as [[e ->]|(_ & _ & _ & ->)]; simpl.
    + now rewrite only_entry_lookup, partial_alter_self.
    + rewrite only_entry_lookup.
      destruct fault; simpl; [now rewrite only_entry_lookup, partial_alter_self |].
      destruct (db !! hash) eqn:Hk; simpl;
        [now rewrite only_entry_lookup, Hk, <- Hk, partial_alter_self |].
      destruct (Pg.int4_range views); simpl.
      * now rewrite lookup_insert_eq.
      * now rewrite only_entry_lookup, Hk, <- Hk, partial_alter_self.
  - unfold Pg.Get, Pg.Get_body, Pg.query_select, Pg.exec_update, Pg.exec_delete,
      Pg.Get_deferred.
    rewrite !only_entry_lookup.
    assert (Hid : partial_alter (fun _ => only_entry key db !! key) key db = db)
      by (rewrite only_entry_lookup; apply partial_alter_self).
    destruct f as [[b|] [q|] [x|] [c|]]; simpl; rewrite ?Hid; try reflexivity;
      destruct (db !! key) as [r|] eqn:Hk; simpl; rewrite ?Hid; try reflexivity;
      destruct (IsAvailable now (Pg.ToSecret (Pg.scan_row key r))); simpl;
      rewrite ?Hid; try reflexivity;
      try (destruct (Pg.int4_range (Pg.remaining_views r - 1)); simpl);
      rewrite ?Hid, ?lookup_insert_eq, ?lookup_delete_eq; reflexivity.
Qed.

Lemma only_entry_partial_alter_ne {V} (f : option V -> option V) k k' (m : gmap string V) :
  k <> k' -> only_entry k' (partial_alter f k m) = only_entry k' m.
Proof. intros Hne. unfold only_entry. now rewrite lookup_partial_alter_ne. Qed.

(** X7. On the in-memory storage two calls on different hashes do not see each
    other: in either order each returns what it returns alone, and the
    store at the end is the same. *)
Theorem Mem_calls_on_different_hashes_commute (st : Mem.memStorage) (o1 o2 : MemTrace.op) :
  Mem_op_key o1 <> Mem_op_key o2 ->
  exists st',
    MemTrace.run st [o1; o2] = ([(MemTrace.step st o1).1; (MemTrace.step st o2).1], st')
    /\ MemTrace.run st [o2; o1] = ([(MemTrace.step st o2).1; (MemTrace.step st o1).1], st').
Proof.
  intros Hne. cbn [MemTrace.run].
  rewrite (Mem_step_local st o1), (Mem_step_local st o2). cbn [fst snd].
  rewrite (Mem_step_local (partial_alter _ (Mem_op_key o1) st) o2).
  rewrite (Mem_step_local (partial_alter _ (Mem_op_key o2) st) o1).
  rewrite !only_entry_partial_alter_ne by done.
  eexists. split; [reflexivity |]. f_equal.
  rewrite partial_alter_partial_alter. now rewrite decide_False.
Qed.

Lemma Mem_calls_on_different_hashes_commute_witness :
  exists st',
    MemTrace.run {[ "9f2c" := mkSecret "9f2c" "x" 100 0 1 ]}
      [MemTrace.OpGet "9f2c" 200 201; MemTrace.OpStore "77aa" 300 "y" 2 0]
    = ([(mkSecret "9f2c" "x" 100 0 0, None); (mkSecret "77aa" "y" 300 0 2, None)], st')
    /\ MemTrace.run {[ "9f2c" := mkSecret "9f2c" "x" 100 0 1 ]}
         [MemTrace.OpStore "77aa" 300 "y" 2 0; MemTrace.OpGet "9f2c" 200 201]
       = ([(mkSecret "77aa" "y" 300 0 2, None); (mkSecret "9f2c" "x" 100 0 0, None)], st').
Proof.
  assert (Hne : Mem_op_key (MemTrace.OpGet "9f2c" 200 201)
                <> Mem_op_key (MemTrace.OpStore "77aa" 300 "y" 2 0)) by discriminate.
  destruct (Mem_calls_on_different_hashes_commute
              {[ "9f2c" := mkSecret "9f2c" "x" 100 0 1 ]}
              (MemTrace.OpGet "9f2c" 200 201) (MemTrace.OpStore "77aa" 300 "y" 2 0) Hne)
    as (st' & H1 & H2).
  exists st'. split; [exact H1 | exact H2].
Defined.

(** X8. On the PostgreSQL storage two calls on different hashes do not see
    each other, whatever the driver reports to either: in either order each
    returns what it returns alone, and the table at the end is the same. *)
Theorem Pg_calls_on_different_hashes_commute (db : Pg.table) (o1 o2 : PgTrace.op) :
  Pg_op_key o1 <> Pg_op_key o2 ->
  exists db',
    PgTrace.run db [o1; o2] = ([(PgTrace.step db o1).1; (PgTrace.step db o2).1], db')
    /\ PgTrace.run db [o2; o1] = ([(PgTrace.step db o2).1; (PgTrace.step db o1).1], db').
Proof.
  intros Hne. cbn [PgTrace.run].
  rewrite (Pg_step_local db o1), (Pg_step_local db o2). cbn [fst snd].
  rewrite (Pg_step_local (partial_alter _ (Pg_op_key o1) db) o2).
  rewrite (Pg_step_local (partial_alter _ (Pg_op_key o2) db) o1).
  rewrite !only_entry_partial_alter_ne by done.
  eexists. split; [reflexivity |]. f_equal.
  rewrite partial_alter_partial_alter. now rewrite decide_False.
Qed.

Lemma Pg_calls_on_different_hashes_commute_witness :
  exists db',
    PgTrace.run {[ "9f2c" := Pg.mkRow "x" 100 None 1 ]}
      [PgTrace.OpGet Pg.no_faults "9f2c" 200; PgTrace.OpStore None "77aa" 300 "y" 2 0]
    = ([(mkSecret "9f2c" "x" 100 0 0, None); (mkSecret "77aa" "y" 300 0 2, None)], db')
    /\ PgTrace.run {[ "9f2c" := Pg.mkRow "x" 100 None 1 ]}
         [PgTrace.OpStore None "77aa" 300 "y" 2 0; PgTrace.OpGet Pg.no_faults "9f2c" 200]
       = ([(mkSecret "77aa" "y" 300 0 2, None); (mkSecret "9f2c" "x" 100 0 0, None)], db').
Proof.
  assert (Hne : Pg_op_key (PgTrace.OpGet Pg.no_faults "9f2c" 200)
                <> Pg_op_key (PgTrace.OpStore None "77aa" 300 "y" 2 0)) by discriminate.
  destruct (Pg_calls_on_different_hashes_commute
              {[ "9f2c" := Pg.mkRow "x" 100 None 1 ]}
              (PgTrace.OpGet Pg.no_faults "9f2c" 200)
              (PgTrace.OpStore None "77aa" 300 "y" 2 0) Hne)
    as (db' & H1 & H2).
  exists db'. split; [exact H1 | exact H2].
Defined.

(** ** Failed transactions *)

(** X9. A [Get] of the PostgreSQL storage that the driver fails at [Beginx],
    at the query or at the UPDATE or DELETE never gets to [Commit]: it
    returns before the transaction, or the deferred function rolls the
    transaction back, and the table is as it was. So, when [Commit] does
    not fail, a [Get] that returns an error has taken no view: it has
    changed the table in one case only, where the driver reported nothing
    and the row was not available, and then the change is the deletion of
    that row. *)
Theorem Pg_Get_error_keeps_table
    (db : Pg.table) (f : Pg.faults) (key : string) (now : Time) :
  Pg.commit_fault f = None ->
  (f <> Pg.no_faults -> (Pg.Get db f key now).2 = db)
  /\ ((Pg.Get db f key now).1.2 <> None ->
      (Pg.Get db f key now).2 = db
      \/ (f = Pg.no_faults
          /\ exists r, db !! key = Some r
                       /\ IsAvailable now (row_secret key r) = false
                       /\ (Pg.Get db f key now).2 = delete key db)).
Proof.
  intros Hc. split; [intros Hf; now apply Pg_Get_fault |].
  intros Herr.
  destruct f as [[b|] [q|] [x|] c]; simpl in Hc; subst c;
    try (left; apply Pg_Get_fault; discriminate).
  change (Pg.mkFaults None None None None) with Pg.no_faults in *.
  destruct (db !! key) as [r|] eqn:Hk; [| left; now rewrite Pg_Get_absent].
  destruct (IsAvailable now (row_secret key r)) eqn:Ha.
  - left. revert Herr.
    unfold Pg.Get, Pg.Get_body, Pg.query_select, Pg.exec_update, Pg.Get_deferred.
    simpl. rewrite Hk. fold (row_secret key r). rewrite Ha.
    destruct (Pg.int4_range (Pg.remaining_views r - 1)); simpl; [| done].
    intros Herr. now destruct Herr.
  - right. split; [done |]. exists r.
    destruct (Pg_Get_unavailable db Pg.no_faults key now r Hk Ha) as (_ & Hdel & _).
    auto.
Qed.

Lemma Pg_Get_error_keeps_table_witness :
  (Pg.Get {[ "9f2c" := Pg.mkRow "x" 100 None 2 ]}
     (Pg.mkFaults None None (Some "driver: bad connection") None) "9f2c" 200).2
  = {[ "9f2c" := Pg.mkRow "x" 100 None 2 ]}.
Proof.
  apply (Pg_Get_error_keeps_table {[ "9f2c" := Pg.mkRow "x" 100 None 2 ]}
           (Pg.mkFaults None None (Some "driver: bad connection") None) "9f2c" 200);
    [reflexivity | discriminate].
Defined.

(** ** The expiry time in the table *)

(** X11. The PostgreSQL storage does not keep the expiry time. [Store] with a
    TTL between 1 and [max_ttl_minutes] minutes returns a secret that
    expires at the creation time plus the TTL, but the row it writes holds
    the zero time in [expires_at]: a [Get] at any later time, also after
    the expiry time, succeeds while views are left, and the secret it
    returns has no expiry time. *)
Theorem Pg_Store_does_not_keep_the_expiry
    (db : Pg.table) (hash : string) (now : Time) (secret : string) (views ttl : Z)
    (now1 : Time) :
  secret <> "" -> 1 <= views <= 2 ^ 31 - 1 -> 0 < ttl <= max_ttl_minutes -> 0 <= now ->
  db !! hash = None ->
  exists s db' s' db'',
    Pg.Store db None hash now secret views ttl = ((s, None), db')
    /\ ExpiresAt s = now + ttl * Minute
    /\ db' !! hash = Some (Pg.mkRow secret now (Some zeroTime) views)
    /\ Pg.Get db' Pg.no_faults hash now1 = ((s', None), db'')
    /\ SecretText s' = secret
    /\ RemainingViews s' = views - 1
    /\ ExpiresAt s' = zeroTime.
Proof.
  intros Hs Hv Ht Hnow Hk.
  assert (Hr4 : Pg.int4_range views = true) by (apply bool_decide_eq_true; lia).
  rewrite Pg_Store_valid by (done || lia).
  assert (He : ExpiresAt (created hash now secret views ttl) = now + ttl * Minute).
  { simpl. rewrite bool_decide_eq_true_2 by lia. now rewrite mul_Minute_exact by lia. }
  assert (Hz : IsZero (ExpiresAt (created hash now secret views ttl)) = false).
  { apply bool_decide_eq_false. rewrite He. unfold zeroTime, Minute. lia. }
  rewrite Hz.
  set (r := Pg.mkRow secret now (Some zeroTime) views).
  assert (Ha : IsAvailable now1 (row_secret hash r) = true).
  { apply IsAvailable_true. rewrite row_secret_views. simpl. split; [auto | lia]. }
  eexists _, _, _, _. split; [reflexivity |]. split; [exact He |].
  split; [apply lookup_insert_eq |].
  rewrite (Pg_Get_available _ _ _ r) by (first [apply lookup_insert_eq | done | simpl; lia]).
  split; [reflexivity |]. done.
Qed.

Lemma Pg_Store_does_not_keep_the_expiry_witness :
  exists s db' s' db'',
    Pg.Store ∅ None "9f2c" 1000 "x" 5 1 = ((s, None), db')
    /\ ExpiresAt s = 1000 + 1 * Minute
    /\ db' !! "9f2c" = Some (Pg.mkRow "x" 1000 (Some zeroTime) 5)
    /\ Pg.Get db' Pg.no_faults "9f2c" 999999999999999 = ((s', None), db'')
    /\ SecretText s' = "x"
    /\ RemainingViews s' = 5 - 1
    /\ ExpiresAt s' = zeroTime.
Proof.
  apply (Pg_Store_does_not_keep_the_expiry ∅ "9f2c" 1000 "x" 5 1 999999999999999);
    [discriminate | lia | unfold max_ttl_minutes; lia | lia | reflexivity].
Defined.

(** ** The hash key *)

Lemma N_below_16 (k : N) :
  (k < 16)%N ->
  k ∈ [0; 1; 2; 3; 4; 5; 6; 7; 8; 9; 10; 11; 12; 13; 14; 15]%N.
Proof.
  intros H.
  assert (k = 0 \/ k = 1 \/ k = 2 \/ k = 3 \/ k = 4 \/ k = 5 \/ k = 6 \/ k = 7 \/ k = 8
          \/ k = 9 \/ k = 10 \/ k = 11 \/ k = 12 \/ k = 13 \/ k = 14 \/ k = 15)%N as Hc by lia.
  repeat (destruct Hc as [-> | Hc]; [set_solver |]). subst. set_solver.
Qed.

Lemma hextable_at_get (k : N) :
  (k < 16)%N -> String.get (N.to_nat k) Hex.hextable = Some (Hex.hextable_at k).
Proof.
  intros H. apply N_below_16 in H.
  repeat (apply elem_of_cons in H as [-> | H]; [reflexivity |]).
  by apply elem_of_nil in H.
Qed.

Lemma hextable_at_index (k : N) :
  (k < 16)%N ->
  String.index 0 (String (Hex.hextable_at k) EmptyString) Hex.hextable = Some (N.to_nat k).
Proof.
  intros H. apply N_below_16 in H.
  repeat (apply elem_of_cons in H as [-> | H]; [reflexivity |]).
  by apply elem_of_nil in H.
Qed.

Lemma hextable_at_inj (i j : N) :
  (i < 16)%N -> (j < 16)%N -> Hex.hextable_at i = Hex.hextable_at j -> i = j.
Proof.
  intros Hi Hj Heq. pose proof (hextable_at_index i Hi) as H1.
  rewrite Heq, (hextable_at_index j Hj) in H1. injection H1 as H1. lia.
Qed.

Lemma byte_high_low (b : byte) :
  (N.shiftr (Byte.to_N b) 4 < 16)%N /\ (N.land (Byte.to_N b) 15 < 16)%N
  /\ Byte.to_N b = (16 * N.shiftr (Byte.to_N b) 4 + N.land (Byte.to_N b) 15)%N.
Proof.
  pose proof (Byte.to_N_bounded b) as Hb.
  rewrite N.shiftr_div_pow2. change 15%N with (N.ones 4). rewrite N.land_ones.
  change (2 ^ 4)%N with 16%N.
  pose proof (N.div_mod (Byte.to_N b) 16 ltac:(lia)) as Hdm.
  pose proof (N.mod_lt (Byte.to_N b) 16 ltac:(lia)) as Hm.
  assert (Byte.to_N b / 16 < 16)%N by (apply N.Div0.div_lt_upper_bound; lia).
  lia.
Qed.

Lemma byte_digits_inj (b1 b2 : byte) :
  Hex.hextable_at (N.shiftr (Byte.to_N b1) 4) = Hex.hextable_at (N.shiftr (Byte.to_N b2) 4) ->
  Hex.hextable_at (N.land (Byte.to_N b1) 15) = Hex.hextable_at (N.land (Byte.to_N b2) 15) ->
  b1 = b2.
Proof.
  intros Hh Hl.
  destruct (byte_high_low b1) as (Hh1 & Hl1 & E1).
  destruct (byte_high_low b2) as (Hh2 & Hl2 & E2).
  apply hextable_at_inj in Hh; [| done | done].
  apply hextable_at_inj in Hl; [| done | done].
  assert (Hn : Byte.to_N b1 = Byte.to_N b2) by lia.
  pose proof (Byte.of_to_N b1) as H1. rewrite Hn, Byte.of_to_N in H1. congruence.
Qed.

Lemma EncodeToString_inj id : forall id',
  Hex.EncodeToString id = Hex.EncodeToString id' -> id = id'.
Proof.
  induction id as [|b id IH]; intros [|b' id'] H; simpl in H; try done.
  injection H as Hh Hl Hr. f_equal; [now apply byte_digits_inj | now apply IH].
Qed.

Lemma EncodeToString_length id :
  String.length (Hex.EncodeToString id) = (2 * length id)%nat.
Proof. induction id as [|b id IH]; simpl; [done |]. rewrite IH. lia. Qed.

Lemma EncodeToString_digits id : forall i c,
  String.get i (Hex.EncodeToString id) = Some c ->
  exists d, (d < 16)%nat /\ String.get d Hex.hextable = Some c.
Proof.
  induction id as [|b id IH]; intros i c H; simpl in H; [by destruct i |].
  destruct (byte_high_low b) as (Hh & Hl & _).
  destruct i as [|[|i]]; simpl in H.
  - injection H as <-. exists (N.to_nat (N.shiftr (Byte.to_N b) 4)).
    split; [lia | now apply hextable_at_get].
  - injection H as <-. exists (N.to_nat (N.land (Byte.to_N b) 15)).
    split; [lia | now apply hextable_at_get].
  - now apply (IH i).
Qed.

(** X12. [GenHashKey] writes two characters for each byte of the UUID, 32 for
    its 16 bytes, each of them one of [0123456789abcdef], and different
    UUIDs give different keys. *)
Theorem GenHashKey_spec (id id' : list byte) :
  String.length (GenHashKey id) = (2 * length id)%nat
  /\ (forall i c, String.get i (GenHashKey id) = Some c ->
                  exists d, (d < 16)%nat /\ String.get d Hex.hextable = Some c)
  /\ (GenHashKey id = GenHashKey id' -> id = id').
Proof.
  unfold GenHashKey. split; [apply EncodeToString_length |].
  split; [apply EncodeToString_digits | apply EncodeToString_inj].
Qed.

Lemma GenHashKey_spec_witness :
  let id := [x9f; x2c; x00; xff; x10; x01; xab; xcd; xef; x12; x34; x56; x78; x9a; xbc; xde] in
  String.length (GenHashKey id) = 32%nat
  /\ GenHashKey id = "9f2c00ff1001abcdef123456789abcde"
  /\ (exists d, (d < 16)%nat /\ String.get d Hex.hextable = Some (Ascii.ascii_of_nat 102)).
Proof.
  intros id. destruct (GenHashKey_spec id id) as (Hlen & Hdig & _).
  split; [exact Hlen |]. split; [reflexivity |].
  apply (Hdig 1%nat). reflexivity.
Defined.

(** ** The marshaler of a response *)

Lemma getMarshaler_first visit accept :
  (exists key val, (key, val) ∈ visit /\ App.Contains accept key = true
                   /\ App.getMarshaler visit accept = val)
  \/ (App.getMarshaler visit accept = App.zeroMarshaler
      /\ forall key val, (key, val) ∈ visit -> App.Contains accept key = false).
Proof.
  induction visit as [|[k v] visit IH]; simpl.
  - right. split; [done |]. intros key val H. by apply elem_of_nil in H.
  - destruct (App.Contains accept k) eqn:Hc.
    + left. exists k, v. split; [apply list_elem_of_here | done].
    + destruct IH as [(key & val & Hin & Hk & Hg) | [Hz Hnone]].
      * left. exists key, val. split; [now apply list_elem_of_further | done].
      * right. split; [done |]. intros key val Hin.
        apply elem_of_cons in Hin as [[= -> ->] | Hin]; [done | eauto].
Qed.

Lemma getMarshaler_range_order (M : gmap string App.Marshaler) accept visit :
  App.range_order M visit ->
  (exists key, M !! key = Some (App.getMarshaler visit accept)
               /\ App.Contains accept key = true)
  \/ (App.getMarshaler visit accept = App.zeroMarshaler
      /\ forall key val, M !! key = Some val -> App.Contains accept key = false).
Proof.
  intros Hord. unfold App.range_order in Hord.
  destruct (getMarshaler_first visit accept) as [(key & val & Hin & Hk & Hg) | [Hz Hnone]].
  - left. exists key. rewrite Hg. split; [| done].
    rewrite Hord in Hin. now apply elem_of_map_to_list in Hin.
  - right. split; [done |]. intros key val HM. apply (Hnone key val).
    rewrite Hord. now apply elem_of_map_to_list.
Qed.

(** X13. Which marshaler [getMarshaler] returns. Whatever the order of the
    [range], it returns a marshaler of the map whose key occurs in the
    header, or the zero marshaler when no key of the map occurs in it; and
    every marshaler of the map whose key occurs in the header is returned
    for some order of the [range], so that a header in which the keys of
    two marshalers occur does not determine the answer. *)
Theorem getMarshaler_choices (M : gmap string App.Marshaler) (accept : string) :
  (forall visit, App.range_order M visit ->
     (exists key, M !! key = Some (App.getMarshaler visit accept)
                  /\ App.Contains accept key = true)
     \/ (App.getMarshaler visit accept = App.zeroMarshaler
         /\ forall key val, M !! key = Some val -> App.Contains accept key = false))
  /\ (forall key val, M !! key = Some val -> App.Contains accept key = true ->
        exists visit, App.range_order M visit /\ App.getMarshaler visit accept = val).
Proof.
  split.
  - intros visit Hord. now apply getMarshaler_range_order.
  - intros key val HM Hc. exists ((key, val) :: map_to_list (delete key M)). split.
    + unfold App.range_order. now apply map_to_list_delete.
    + simpl. now rewrite Hc.
Qed.

Lemma getMarshaler_choices_witness :
  let accept := "text/xml, application/json" in
  (exists visit, App.range_order App.initMarchalers visit
                 /\ App.getMarshaler visit accept = App.jsonMarshaler)
  /\ (exists visit, App.range_order App.initMarchalers visit
                    /\ App.getMarshaler visit accept = App.xmlTextMarshaler).
Proof.
  intros accept.
  destruct (getMarshaler_choices App.initMarchalers accept) as [_ H]. split.
  - apply (H "application/json"); reflexivity.
  - apply (H "text/xml"); reflexivity.
Defined.

Lemma initMarchalers_values key val :
  App.initMarchalers !! key = Some val ->
  val = App.jsonMarshaler \/ val = App.xmlTextMarshaler \/ val = App.xmlAppMarshaler.
Proof.
  unfold App.initMarchalers. intros H.
  apply elem_of_list_to_map_2 in H.
  repeat (apply elem_of_cons in H as [[= -> ->] | H]; [auto |]).
  by apply elem_of_nil in H.
Qed.

(** The calls of a response are listed and [c] is none of them. *)
Ltac not_a_call :=
  let H := fresh in
  intros H; repeat (apply elem_of_cons in H as [H | H]; [discriminate |]);
  by apply elem_of_nil in H.

Section Responses.

Variables json_Marshal xml_Marshal : Secret -> string + string.

Lemma dataResponse_no_marshaler (e : App.handlerEnv) (data : Secret) (r : App.request) :
  App.range_order App.initMarchalers (App.h_visit e) ->
  (forall key val, App.initMarchalers !! key = Some val ->
                   App.Contains (App.req_accept r) key = false) ->
  App.dataResponse json_Marshal xml_Marshal e data r
  = [App.wError "Accept header is invalid" 405].
Proof.
  intros Hord Hnone. unfold App.dataResponse.
  destruct (getMarshaler_range_order App.initMarchalers (App.req_accept r) _ Hord)
    as [(key & HM & Hc) | [Hz _]].
  - rewrite (Hnone key _ HM) in Hc. done.
  - now rewrite Hz.
Qed.

(** X14. With the marshalers of [initMarchalers], [dataResponse] never calls the
    nil function of the zero marshaler: it answers 405 when no key occurs
    in the header [Accept] or when the marshaler fails, and otherwise sets
    the content type to that of a marshaler whose key occurs in the header
    and writes what its function returned, followed by a 405 when the write
    fails. *)
Theorem dataResponse_cases (e : App.handlerEnv) (data : Secret) (r : App.request) :
  App.range_order App.initMarchalers (App.h_visit e) ->
  let resp := App.dataResponse json_Marshal xml_Marshal e data r in
  (App.wPanic ∉ resp)
  /\ ((forall key val, App.initMarchalers !! key = Some val ->
                       App.Contains (App.req_accept r) key = false) ->
      resp = [App.wError "Accept header is invalid" 405])
  /\ ((exists key val, App.initMarchalers !! key = Some val
                       /\ App.Contains (App.req_accept r) key = true) ->
      exists key m, App.initMarchalers !! key = Some m
        /\ App.Contains (App.req_accept r) key = true
        /\ match App.call_MarshalFunc json_Marshal xml_Marshal m data with
           | Some (inr bytes) =>
               resp = [App.wSetHeader "Content-type" (App.ContentType m); App.wWrite bytes]
                      ++ match App.h_write_err e with
                         | Some err => [App.wError err 405]
                         | None => []
                         end
           | Some (inl err) => resp = [App.wError err 405]
           | None => False
           end).
Proof.
  intros Hord resp. subst resp. unfold App.dataResponse.
  destruct (getMarshaler_range_order App.initMarchalers (App.req_accept r) _ Hord)
    as [(key & HM & Hc) | [Hz Hnone]].
  - set (m := App.getMarshaler (App.h_visit e) (App.req_accept r)) in *.
    assert (Hm : m = App.jsonMarshaler \/ m = App.xmlTextMarshaler \/ m = App.xmlAppMarshaler)
      by (eapply initMarchalers_values; done).
    assert (Hct : App.ContentType m <> "") by (destruct Hm as [-> | [-> | ->]]; done).
    rewrite bool_decide_eq_false_2 by done.
    assert (Hf : exists x, App.call_MarshalFunc json_Marshal xml_Marshal m data = Some x).
    { destruct Hm as [-> | [-> | ->]]; simpl; eauto. }
    destruct Hf as [x Hx]. rewrite Hx.
    split; [| split].
    + destruct x as [err | bytes]; [not_a_call |].
      destruct (App.h_write_err e); simpl; not_a_call.
    + intros Hnone. rewrite (Hnone key m HM) in Hc. done.
    + intros _. exists key, m. rewrite Hx. split; [done |]. split; [done |].
      now destruct x.
  - rewrite Hz. simpl. split; [not_a_call |]. split; [done |].
    intros (key & val & HM & Hc). rewrite (Hnone key val HM) in Hc. done.
Qed.

End Responses.

Lemma dataResponse_cases_witness :
  let e := App.mkHandlerEnv (mkCallEnv "" 0 0 None Pg.no_faults)
             (map_to_list App.initMarchalers) None in
  App.dataResponse (fun s => inr (SecretText s)) (fun s => inr (SecretText s))
    e (mkSecret "9f2c" "x" 100 0 1) (App.mkRequest "9f2c" false ∅ "text/html")
  = [App.wError "Accept header is invalid" 405].
Proof.
  intros e.
  assert (Hord : App.range_order App.initMarchalers (App.h_visit e))
    by (unfold App.range_order; reflexivity).
  apply (dataResponse_cases (fun s => inr (SecretText s)) (fun s => inr (SecretText s))
           e (mkSecret "9f2c" "x" 100 0 1) (App.mkRequest "9f2c" false ∅ "text/html") Hord).
  intros key val H. apply elem_of_list_to_map_2 in H.
  repeat (apply elem_of_cons in H as [[= -> ->] | H]; [reflexivity |]).
  by apply elem_of_nil in H.
Defined.

(** ** The handlers on the in-memory storage *)

Section HandlersOnMem.

Variables json_Marshal xml_Marshal : Secret -> string + string.
Variable Atoi : string -> option Z.

Let getSecretHandler :=
  App.getSecretHandler (St := gmap string Secret) json_Marshal xml_Marshal.
Let storeSecretHandler :=
  App.storeSecretHandler (St := gmap string Secret) json_Marshal xml_Marshal Atoi.
Let dataResponse := App.dataResponse json_Marshal xml_Marshal.

(** No key of the marshalers occurs in the header [Accept] of [r]. *)
Let no_marshaler (r : App.request) : Prop :=
  forall key val, App.initMarchalers !! key = Some val ->
                  App.Contains (App.req_accept r) key = false.

(** X15. [getSecretHandler] over the in-memory storage. An unknown hash and a
    secret that is expired or used up get the same answer, 404 with
    [Secret not found], and the record, if any, is removed. Otherwise the
    view is taken first and the answer is made afterwards: also when the
    answer is the 405 for a header [Accept] that names no marshaler, the
    stored count is one lower. *)
Theorem getSecretHandler_on_memory
    (st : Mem.memStorage) (e : App.handlerEnv) (r : App.request) :
  let key := App.req_hash r in
  let now1 := env_now1 (App.h_call e) in
  let now2 := env_now2 (App.h_call e) in
  (st !! key = None ->
   getSecretHandler st e r = ([App.wError "Secret not found" 404], st))
  /\ (forall s, st !! key = Some s ->
        IsAvailable now1 s = false \/ IsAvailable now2 s = false ->
        getSecretHandler st e r = ([App.wError "Secret not found" 404], delete key st))
  /\ (forall s, st !! key = Some s ->
        IsAvailable now1 s = true -> IsAvailable now2 s = true ->
        RemainingViews s <= Int64.max_signed ->
        let s' := set_RemainingViews (RemainingViews s - 1) s in
        getSecretHandler st e r = (dataResponse e s' r, <[key := s']> st)
        /\ (App.range_order App.initMarchalers (App.h_visit e) -> no_marshaler r ->
            getSecretHandler st e r
            = ([App.wError "Accept header is invalid" 405], <[key := s']> st))).
Proof.
  intros key now1 now2. subst getSecretHandler dataResponse.
  unfold App.getSecretHandler. cbn [Storage_Get memStorage_Storage].
  fold key now1 now2. split; [| split].
  - intros Hk. now rewrite Mem_Get_absent.
  - intros s Hk Hu. now rewrite (Mem_Get_unavailable _ _ s).
  - intros s Hk H1 H2 Hr. set (s' := set_RemainingViews (RemainingViews s - 1) s).
    rewrite (Mem_Get_available _ _ s) by done.
    pose proof H1 as H1'. apply IsAvailable_true in H1' as [_ Hpos].
    rewrite Int64Facts.sub_one_pos;
      [| unfold Int64.in_range, Int64.min_signed, Int64.max_signed in *; lia | done].
    fold s'. split; [done |]. intros Hord Hnone. f_equal.
    now apply (dataResponse_no_marshaler json_Marshal xml_Marshal e s' r Hord).
Qed.

(** X16. [storeSecretHandler] over the in-memory storage. A form that does not
    parse, a TTL or a view count that is not a number, empty content, a
    view count below 1 and a negative TTL all get the same answer, 405 with
    [Invalid input], and nothing is stored. Otherwise the secret is stored
    first and the answer is made afterwards: also when the answer is the
    405 for a header [Accept] that names no marshaler, the secret is in the
    map. *)
Theorem storeSecretHandler_on_memory
    (st : Mem.memStorage) (e : App.handlerEnv) (r : App.request) :
  let hash := env_hash (App.h_call e) in
  let now := env_now1 (App.h_call e) in
  let secret := App.FormValue r "secret" in
  (App.req_form_err r = true
   \/ Atoi (App.FormValue r "expireAfter") = None
   \/ Atoi (App.FormValue r "expireAfterViews") = None
   \/ (exists ttl views,
         Atoi (App.FormValue r "expireAfter") = Some ttl
         /\ Atoi (App.FormValue r "expireAfterViews") = Some views
         /\ (secret = "" \/ views < 1 \/ ttl < 0)) ->
   storeSecretHandler st e r = ([App.wError "Invalid input" 405], st))
  /\ (forall ttl views,
        App.req_form_err r = false ->
        Atoi (App.FormValue r "expireAfter") = Some ttl ->
        Atoi (App.FormValue r "expireAfterViews") = Some views ->
        secret <> "" -> 1 <= views -> 0 <= ttl ->
        let s := created hash now secret views ttl in
        storeSecretHandler st e r = (dataResponse e s r, <[hash := s]> st)
        /\ (App.range_order App.initMarchalers (App.h_visit e) -> no_marshaler r ->
            storeSecretHandler st e r
            = ([App.wError "Accept header is invalid" 405], <[hash := s]> st))).
Proof.
  intros hash now secret. subst storeSecretHandler dataResponse.
  unfold App.storeSecretHandler. cbn [Storage_Store memStorage_Storage].
  fold hash now secret. split.
  - intros [Hf | [Ha | [Ha | (ttl & views & Ht & Hv & Hinv)]]].
    + now rewrite Hf.
    + destruct (App.req_form_err r); [done |]. now rewrite Ha.
    + destruct (App.req_form_err r); [done |].
      destruct (Atoi (App.FormValue r "expireAfter")); [| done]. now rewrite Ha.
    + destruct (App.req_form_err r); [done |]. rewrite Ht, Hv.
      assert (Herr : (NewSecret hash now secret views ttl).2 <> None)
        by now apply NewSecret_error_iff.
      unfold Mem.Store.
      destruct (NewSecret_cases hash now secret views ttl) as [[e0 ->]|(_ & _ & _ & Hok)];
        [done |]. rewrite Hok in Herr. done.
  - intros ttl views Hf Ht Hv Hs Hvi Htt. set (s := created hash now secret views ttl).
    rewrite Hf, Ht, Hv.
    rewrite Mem_Store_valid by done. fold s. split; [done |].
    intros Hord Hnone. f_equal.
    now apply (dataResponse_no_marshaler json_Marshal xml_Marshal e s r Hord).
Qed.

End HandlersOnMem.

Lemma no_marshaler_for_text_html key val :
  App.initMarchalers !! key = Some val -> App.Contains "text/html" key = false.
Proof.
  intros H. apply elem_of_list_to_map_2 in H.
  repeat (apply elem_of_cons in H as [[= -> ->] | H]; [reflexivity |]).
  by apply elem_of_nil in H.
Qed.

Lemma getSecretHandler_on_memory_witness :
  let s := mkSecret "9f2c" "x" 100 0 1 in
  let e := App.mkHandlerEnv (mkCallEnv "" 200 201 None Pg.no_faults)
             (map_to_list App.initMarchalers) None in
  App.getSecretHandler (St := gmap string Secret)
    (fun s => inr (SecretText s)) (fun s => inr (SecretText s))
    {[ "9f2c" := s ]} e (App.mkRequest "9f2c" false ∅ "text/html")
  = ([App.wError "Accept header is invalid" 405],
     <[ "9f2c" := set_RemainingViews (RemainingViews s - 1) s ]> {[ "9f2c" := s ]}).
Proof.
  intros s e.
  assert (Hk : ({[ "9f2c" := s ]} : Mem.memStorage) !! "9f2c" = Some s) by reflexivity.
  assert (Hr : RemainingViews s <= Int64.max_signed) by (vm_compute; discriminate).
  assert (Hord : App.range_order App.initMarchalers (App.h_visit e))
    by (unfold App.range_order; reflexivity).
  destruct (getSecretHandler_on_memory (fun s => inr (SecretText s))
              (fun s => inr (SecretText s)) {[ "9f2c" := s ]} e
              (App.mkRequest "9f2c" false ∅ "text/html")) as (_ & _ & H).
  destruct (H s Hk eq_refl eq_refl Hr) as [_ H'].
  apply H'; [exact Hord | exact no_marshaler_for_text_html].
Defined.

Lemma storeSecretHandler_on_memory_witness :
  let atoi := fun s : string =>
    if bool_decide (s = "5") then Some 5 else if bool_decide (s = "10") then Some 10 else None in
  let e := App.mkHandlerEnv (mkCallEnv "9f2c" 100 100 None Pg.no_faults)
             (map_to_list App.initMarchalers) None in
  let form : gmap string string :=
    {[ "secret" := "x"; "expireAfter" := "10"; "expireAfterViews" := "5" ]} in
  App.storeSecretHandler (St := gmap string Secret)
    (fun s => inr (SecretText s)) (fun s => inr (SecretText s)) atoi
    ∅ e (App.mkRequest "" false form "text/html")
  = ([App.wError "Accept header is invalid" 405],
     <[ "9f2c" := created "9f2c" 100 "x" 5 10 ]> ∅)
  /\ App.storeSecretHandler (St := gmap string Secret)
       (fun s => inr (SecretText s)) (fun s => inr (SecretText s)) atoi
       ∅ e (App.mkRequest "" false ∅ "application/json")
     = ([App.wError "Invalid input" 405], ∅).
Proof.
  intros atoi e form.
  assert (Hord : App.range_order App.initMarchalers (App.h_visit e))
    by (unfold App.range_order; reflexivity).
  split.
  - destruct (storeSecretHandler_on_memory (fun s => inr (SecretText s))
                (fun s => inr (SecretText s)) atoi ∅ e
                (App.mkRequest "" false form "text/html")) as [_ H].
    destruct (H 10 5 eq_refl eq_refl eq_refl) as [_ H'];
      [discriminate | lia | lia |].
    apply H'; [exact Hord | exact no_marshaler_for_text_html].
  - destruct (storeSecretHandler_on_memory (fun s => inr (SecretText s))
                (fun s => inr (SecretText s)) atoi ∅ e
                (App.mkRequest "" false ∅ "application/json")) as [H _].
    apply H. right. left. reflexivity.
Defined.

(** ** The two storages side by side *)

Lemma same_store_lookup st db k s :
  same_store st db -> st !! k = Some s ->
  db !! k = Some (row_of_secret s) /\ row_secret k (row_of_secret s) = s
  /\ ExpiresAt s = zeroTime /\ 0 <= RemainingViews s <= 2 ^ 31 - 1.
Proof.
  intros [Hrows Hok] Hk. destruct (Hok k s Hk) as (Hh & He & Hv).
  split; [rewrite Hrows, Hk; done |]. split; [| done].
  unfold row_secret, Pg.ToSecret, Pg.scan_row, row_of_secret. simpl.
  destruct s; simpl in *. congruence.
Qed.

Lemma same_store_insert st db k s :
  same_store st db -> Hash s = k -> ExpiresAt s = zeroTime ->
  0 <= RemainingViews s <= 2 ^ 31 - 1 ->
  same_store (<[k := s]> st) (<[k := row_of_secret s]> db).
Proof.
  intros [Hrows Hok] Hh He Hv. split.
  - intros j. rewrite !lookup_insert. case_decide; [done | apply Hrows].
  - intros j s0. rewrite lookup_insert. case_decide; [| apply Hok].
    intros [= <-]. subst. done.
Qed.

Lemma same_store_delete st db k :
  same_store st db -> same_store (delete k st) (delete k db).
Proof.
  intros [Hrows Hok]. split.
  - intros j. rewrite !lookup_delete. case_decide; [done | apply Hrows].
  - intros j s0. rewrite lookup_delete. case_decide; [done | apply Hok].
Qed.

Lemma same_store_step st db c :
  same_store st db -> no_driver_error (PgTrace.step db (Pg_call c)).1 ->
  (MemTrace.step st (Mem_call c)).1 = (PgTrace.step db (Pg_call c)).1
  /\ same_store (MemTrace.step st (Mem_call c)).2 (PgTrace.step db (Pg_call c)).2.
Proof.
  intros Hsame Hno. destruct c as [fault hash now secret views | key now1 now2]; simpl in *.
  - revert Hno. unfold Mem.Store, Pg.Store, Pg.exec_insert, no_driver_error.
    destruct (NewSecret_cases hash now secret views 0) as [[e ->]|(Hs & Hv & _ & ->)];
      [done |]. simpl.
    destruct fault as [msg|]; simpl; [intros Hno; now destruct (Hno msg) |].
    destruct (db !! hash) as [r0|] eqn:Hk; simpl; [intros Hno; now edestruct Hno |].
    unfold Pg.int4_range. case_bool_decide as Hr; simpl; [| intros Hno; now edestruct Hno].
    intros _. split; [done |].
    apply (same_store_insert st db hash (created hash now secret views 0));
      [done | done | done | simpl; lia].
  - destruct (st !! key) as [s|] eqn:Hk.
    + destruct (same_store_lookup st db key s Hsame Hk) as (Hdb & Hrs & He & Hv).
      destruct (decide (0 < RemainingViews s)) as [Hpos|Hpos].
      * assert (Ha : forall n, IsAvailable n s = true)
          by (intros n; apply IsAvailable_true; auto).
        rewrite (Mem_Get_available _ _ s) by done.
        rewrite (Pg_Get_available _ _ _ (row_of_secret s)) by
          first [done | rewrite Hrs; apply Ha | simpl; lia].
        rewrite Hrs. simpl.
        rewrite Int64Facts.sub_one_pos;
          [| unfold Int64.in_range, Int64.min_signed, Int64.max_signed; lia | done].
        split; [done |].
        apply (same_store_insert st db key (set_RemainingViews (RemainingViews s - 1) s));
          [done | | done | simpl; lia].
        simpl. destruct Hsame as [_ Hok]. now apply (Hok key s).
      * assert (Ha : forall n, IsAvailable n s = false)
          by (intros n; apply IsAvailable_false; right; lia).
        rewrite (Mem_Get_unavailable _ _ s) by auto.
        destruct (Pg_Get_unavailable db Pg.no_faults key now1 (row_of_secret s) Hdb)
          as (Hres & Hdel & _); [rewrite Hrs; apply Ha |].
        rewrite Hres, (Hdel eq_refl). simpl. split; [done |]. now apply same_store_delete.
    + rewrite Mem_Get_absent by done.
      rewrite Pg_Get_absent by (destruct Hsame as [Hrows _]; now rewrite Hrows, Hk).
      done.
Qed.

Lemma same_store_run cs : forall st db,
  same_store st db ->
  Forall no_driver_error (PgTrace.run db (Pg_call <$> cs)).1 ->
  (MemTrace.run st (Mem_call <$> cs)).1 = (PgTrace.run db (Pg_call <$> cs)).1
  /\ same_store (MemTrace.run st (Mem_call <$> cs)).2 (PgTrace.run db (Pg_call <$> cs)).2.
Proof.
  induction cs as [|c cs IH]; intros st db Hsame Hno; [done |].
  revert Hno. cbn [fmap list_fmap MemTrace.run PgTrace.run].
  change (list_fmap _ _ Mem_call cs) with (Mem_call <$> cs).
  change (list_fmap _ _ Pg_call cs) with (Pg_call <$> cs).
  pose proof (same_store_step st db c Hsame) as Hstep.
  destruct (MemTrace.step st (Mem_call c)) as [r1 st1].
  destruct (PgTrace.step db (Pg_call c)) as [r2 db1].
  specialize (IH st1 db1).
  destruct (MemTrace.run st1 (Mem_call <$> cs)) as [rs1 st2].
  destruct (PgTrace.run db1 (Pg_call <$> cs)) as [rs2 db2]. simpl in *.
  intros Hno. inversion Hno as [|? ? Hr Hrs]; subst.
  destruct (Hstep Hr) as [-> Hsame1].
  destruct (IH Hsame1 Hrs) as [-> Hsame2]. done.
Qed.

(** X17. For secrets without TTL the two storages answer alike. Take the same
    calls on an empty in-memory storage and on an empty table, the driver
    reporting no failure to a [Get]. As long as no [Store] on the table
    returns an error of the driver (which it does for a hash that is a key
    already, for a view count beyond the 32-bit column and for whatever
    else the server refuses), the two return, call by call, the same error
    and the same secret but for the creation time, which the table has
    read back. *)
Theorem storages_agree_without_TTL (cs : list storageCall) :
  Forall no_driver_error (PgTrace.run ∅ (Pg_call <$> cs)).1 ->
  Forall2 same_but_creation_time
    (MemTrace.run ∅ (Mem_call <$> cs)).1 (PgTrace.run ∅ (Pg_call <$> cs)).1.
Proof.
  intros Hno.
  destruct (same_store_run cs ∅ ∅) as [-> _]; [| done |].
  { split; [intros k; now rewrite !lookup_empty |].
    intros k s. now rewrite lookup_empty. }
  apply Forall_Forall2_diag, Forall_forall. intros r _. repeat split.
Qed.

Lemma storages_agree_without_TTL_witness :
  let cs := [CallStore None "9f2c" 100 "x" 1; CallGet "9f2c" 200 201;
             CallGet "9f2c" 300 301] in
  Forall2 same_but_creation_time
    (MemTrace.run ∅ (Mem_call <$> cs)).1 (PgTrace.run ∅ (Pg_call <$> cs)).1
  /\ (MemTrace.run ∅ (Mem_call <$> cs)).1
     = [(mkSecret "9f2c" "x" 100 0 1, None); (mkSecret "9f2c" "x" 100 0 0, None);
        (zeroSecret, Some ErrSecretNotAvailable)].
Proof.
  intros cs. split; [| reflexivity].
  apply (storages_agree_without_TTL cs).
  repeat constructor; intros msg; discriminate.
Defined.

(** ** The tests of the package *)

Lemma mul_expiresDelta :
  Int64.mul Tests.expiresDelta Minute = 100 * Minute
  /\ Int64.mul (- Tests.expiresDelta) Minute = - (100 * Minute).
Proof. split; reflexivity. Qed.

(** X18. Every case of [TestSecret_IsAvailable] passes when the clock is past
    the first 100 minutes after the zero time and advances by less than 100
    minutes between the computation of the expiry time and the call of
    [IsAvailable]. *)
Theorem TestSecret_IsAvailable_passes
    (name : string) (tst : Tests.availableCase) (now0 now : Time) :
  (name, tst) ∈ Tests.availableCases ->
  100 * Minute < now0 -> now0 <= now < now0 + 100 * Minute ->
  Tests.availableCase_passes now0 now tst = true.
Proof.
  intros Hin H0 Hnow. destruct mul_expiresDelta as [Hp Hm].
  unfold Tests.availableCases in Hin.
  repeat (apply elem_of_cons in Hin as [[= -> ->] | Hin];
          [unfold Tests.availableCase_passes; cbn [Tests.TTL Tests.ExpAfterViews Tests.Expected];
           rewrite ?Hp, ?Hm; apply bool_decide_eq_true;
           first [ apply IsAvailable_true; unfold Add, zeroTime, Tests.remainingViews in *;
                   simpl; lia
                 | apply IsAvailable_false; unfold Add, zeroTime, Tests.remainingViews in *;
                   simpl; lia ] |]).
  by apply elem_of_nil in Hin.
Qed.

Lemma TestSecret_IsAvailable_passes_witness :
  Tests.availableCase_passes 63900000000000000000 63900000000000000500
    (Tests.mkAvailableCase false (- Tests.expiresDelta) Tests.remainingViews) = true.
Proof.
  apply (TestSecret_IsAvailable_passes "TTL in past, ExpiresAfterViews > 0").
  - do 2 apply list_elem_of_further. apply list_elem_of_here.
  - unfold Minute. lia.
  - unfold Minute. lia.
Defined.

(** X19. Every case of [TestNewSecret] passes, whatever hash is generated and
    whatever the clock shows. *)
Theorem TestNewSecret_passes
    (name : string) (tst : Tests.newSecretCase) (hash : string) (now : Time) :
  (name, tst) ∈ Tests.newSecretCases ->
  Tests.newSecretCase_passes hash now tst = true.
Proof.
  intros Hin. unfold Tests.newSecretCases in Hin.
  repeat (apply elem_of_cons in Hin as [[= -> ->] | Hin]; [reflexivity |]).
  by apply elem_of_nil in Hin.
Qed.

Lemma TestNewSecret_passes_witness :
  Tests.newSecretCase_passes "9f2c" 100
    (Tests.mkNewSecretCase "" Tests.expiresDelta Tests.remainingViews (Some ErrEmptySecret))
  = true.
Proof.
  apply (TestNewSecret_passes "wrong secret text").
  do 2 apply list_elem_of_further. apply list_elem_of_here.
Defined.

Lemma view_results_hash {A} (l : list A) s v (r : result) :
  In r (imap (fun i _ => view_result s v i) l) ->
  match r.2 with
  | None => bool_decide (Hash r.1 = Hash s)
  | Some _ => false
  end = succeeded r.
Proof.
  intros Hin. apply list_elem_of_In, elem_of_lookup_imap in Hin as (i & x & -> & _).
  unfold view_result. destruct (decide (Z.of_nat i < v)); simpl; [| done].
  now apply bool_decide_eq_true.
Qed.

(** X20. [integrationStorageTest] passes on the in-memory storage when its 10000
    [Get]s run one after the other and all read the clock less than 100
    minutes after the [Store]: exactly 100 of them succeed. *)
Theorem integrationStorageTest_sequential_passes
    (hash : string) (now : Time) (nows : list (Time * Time)) :
  0 <= now ->
  Z.of_nat (length nows) = Tests.goroutines ->
  Forall (fun n => n.1 < now + 100 * Minute /\ n.2 < now + 100 * Minute) nows ->
  Tests.integrationStorageTest_sequential hash now nows = true.
Proof.
  intros Hnow Hlen Hclock. unfold Tests.integrationStorageTest_sequential.
  rewrite Mem_Store_valid by (unfold Tests.expiresDelta, Tests.remainingViews; done).
  set (s := created hash now Tests.secretText Tests.remainingViews Tests.expiresDelta).
  assert (He : ExpiresAt s = now + 100 * Minute) by reflexivity.
  destruct (Mem_run_gets hash nows (<[hash := s]> Mem.NewMemStorage) s) as [Hr _].
  { apply lookup_insert_eq. }
  { split; vm_compute; discriminate. }
  { eapply Forall_impl; [exact Hclock |]. intros [n1 n2] [H1 H2]. cbn [fst snd] in *.
    split; right; rewrite He; done. }
  change (Hash s) with hash. rewrite Hr.
  apply bool_decide_eq_true.
  rewrite (List.filter_ext_in _ succeeded) by apply view_results_hash.
  change (length (List.filter succeeded ?l)) with (successes l).
  rewrite successes_view_results by (vm_compute; discriminate).
  change (RemainingViews s) with Tests.remainingViews.
  unfold Tests.goroutines, Tests.remainingViews in *. lia.
Qed.

Lemma integrationStorageTest_sequential_passes_witness :
  Tests.integrationStorageTest_sequential "9f2c" 1000
    (replicate (Z.to_nat Tests.goroutines) (2000, 2001)) = true.
Proof.
  apply (integrationStorageTest_sequential_passes "9f2c" 1000).
  - lia.
  - rewrite length_replicate. unfold Tests.goroutines. lia.
  - apply Forall_replicate. unfold Minute. simpl. lia.
Defined.
